(** * FloorMap.vue: coordinate transformation and view-state synchronisation

    A shallow embedding of the script part of [src/components/FloorMap.vue].

    - JavaScript numbers are modelled as rationals [Q]; the pixel sizes of the
      loaded image ([img.width], [img.height]) are integers [Z].
    - The component's refs ([map], [markerLayer], [L], ...) are the fields of
      one record [State]; every function of the script is a computation in a
      state-and-exception monad [M], so that a dereference of [null] or
      [undefined] is a thrown [TypeError] and a mutation made before a throw
      persists.
    - [markersRef], a JavaScript object used as a dictionary keyed by marker
      label, is a [gmap string LMarker]; labels are assumed not to collide
      with the member names every JavaScript object inherits.
    - The asynchronous [initializeMap] is cut at its three [await]s into
      segments; the event loop is a step function over configurations.
    - The engine keeps, per map, the last camera request, the pan clamp and
      the layers added; [mapOptions], the template and the styles play no part
      in the properties below and are left out. *)

From Stdlib Require Import QArith Qminmax Qabs Lqa ZArith String List.
From stdpp Require Import base gmap strings list.

Local Open Scope string_scope.

(** ** The rendering engine (Leaflet) *)

Record LatLng := mkLatLng { lat : Q; lng : Q }.

Record LatLngBounds := mkBounds { southWest : LatLng; northEast : LatLng }.

(** Modelled from the spec: the rendering engine is an external collaborator
    (Leaflet is not part of this repository).  [new LatLngBounds(a, b)] is the
    smallest axis-aligned rectangle that holds both corners. *)
Definition newLatLngBounds (a b : LatLng) : LatLngBounds :=
  {| southWest := {| lat := Qmin (lat a) (lat b); lng := Qmin (lng a) (lng b) |};
     northEast := {| lat := Qmax (lat a) (lat b); lng := Qmax (lng a) (lng b) |} |}.

(** Modelled from the spec: the bounds type's [pad(fraction)] expansion, which
    moves every side outwards by [fraction] times the extent of the rectangle
    along that axis. *)
Definition pad (b : LatLngBounds) (bufferRatio : Q) : LatLngBounds :=
  let sw := southWest b in
  let ne := northEast b in
  let heightBuffer := (Qabs (lat sw - lat ne) * bufferRatio)%Q in
  let widthBuffer := (Qabs (lng sw - lng ne) * bufferRatio)%Q in
  newLatLngBounds
    {| lat := (lat sw - heightBuffer)%Q; lng := (lng sw - widthBuffer)%Q |}
    {| lat := (lat ne + heightBuffer)%Q; lng := (lng ne + widthBuffer)%Q |}.

(** Modelled from the spec: [unproject(pixelPoint, zoomLevel)] of the
    simple/unbounded projection the map is created with ([crs: CRS.Simple]):
    one pixel per unit at zoom 0, scale [2^zoom], vertical axis negated. *)
Definition unproject (p : Q * Q) (zoom : Z) : LatLng :=
  let scale := (2 ^ zoom)%Q in
  {| lat := (- (snd p / scale))%Q; lng := (fst p / scale)%Q |}.

(** A rectangle is well formed when its south-west corner is below and to the
    left of its north-east corner. *)
Definition wf_bounds (b : LatLngBounds) : Prop :=
  (lat (southWest b) <= lat (northEast b))%Q /\
  (lng (southWest b) <= lng (northEast b))%Q.

(** [outer] holds [inner] with room to spare on each of the four sides. *)
Definition strictly_contains (outer inner : LatLngBounds) : Prop :=
  (lat (southWest outer) < lat (southWest inner))%Q /\
  (lng (southWest outer) < lng (southWest inner))%Q /\
  (lat (northEast inner) < lat (northEast outer))%Q /\
  (lng (northEast inner) < lng (northEast outer))%Q.

(** Options of the two camera calls: [{ animate, duration }]. *)
Record ViewOptions := mkViewOptions { animate : bool; duration : Q }.

(** The camera is the last request the map received. *)
Inductive View :=
| ViewUnset
| FitBounds (b : LatLngBounds) (opts : option ViewOptions)
| SetView (center : LatLng) (zoom : Q) (opts : option ViewOptions).

Inductive LayerKind := ImageLayer | MarkerLayer.

Record LMap := mkLMap {
  view : View;
  maxBounds : option LatLngBounds;
  layers : list LayerKind
}.

Inductive DivIcon :=
| EmptyIcon                               (* [{} as DivIcon] *)
| MkDivIcon (className html : string).    (* [L.divIcon({ className, html })] *)

(** A marker handle: position, icon and the label its click listener passes to
    [handleMarkerClick]. *)
Record LMarker := mkLMarker {
  latlng : LatLng;
  icon : DivIcon;
  onClick : string
}.

Record ImageOverlay := mkImageOverlay { overlayUrl : string; overlayBounds : LatLngBounds }.

Inductive Leaflet := LeafletModule.

(** ** Props, router and component state *)

Module Marker.
Record t := mk { id : Q; x : Q; y : Q; label : string }.
End Marker.

Record FloorMapProps := mkProps {
  floorPlanUrl : string;
  markers : list Marker.t
}.

(** A location: [{ path, query }]; only the query key [name] is used. *)
Record Route := mkRoute { path : string; query_name : option string }.

Inductive Error :=
| TypeError (msg : string)
| JsError (msg : string)        (* [new Error(msg)] *)
| ImportError.                  (* a rejected dynamic [import] *)

Record State := mkState {
  props : FloorMapProps;
  mapContainer : bool;
  map : option LMap;
  markerLayer : option (list LMarker);
  imageOverlay : option ImageOverlay;
  isMapInitialized : bool;
  L : option Leaflet;
  imageHeight : Q;
  selectedMarkerLabel : string;
  markersRef : gmap string LMarker;
  defaultBounds : option LatLngBounds;
  route : Route;
  pushed : list Route;
  console : list (string * Error)
}.

Definition set_map (v : option LMap) (s : State) : State :=
  mkState (props s) (mapContainer s) v (markerLayer s) (imageOverlay s)
    (isMapInitialized s) (L s) (imageHeight s) (selectedMarkerLabel s)
    (markersRef s) (defaultBounds s) (route s) (pushed s) (console s).

Definition set_markerLayer (v : option (list LMarker)) (s : State) : State :=
  mkState (props s) (mapContainer s) (map s) v (imageOverlay s)
    (isMapInitialized s) (L s) (imageHeight s) (selectedMarkerLabel s)
    (markersRef s) (defaultBounds s) (route s) (pushed s) (console s).

Definition set_imageOverlay (v : option ImageOverlay) (s : State) : State :=
  mkState (props s) (mapContainer s) (map s) (markerLayer s) v
    (isMapInitialized s) (L s) (imageHeight s) (selectedMarkerLabel s)
    (markersRef s) (defaultBounds s) (route s) (pushed s) (console s).

Definition set_isMapInitialized (v : bool) (s : State) : State :=
  mkState (props s) (mapContainer s) (map s) (markerLayer s) (imageOverlay s)
    v (L s) (imageHeight s) (selectedMarkerLabel s)
    (markersRef s) (defaultBounds s) (route s) (pushed s) (console s).

Definition set_L (v : option Leaflet) (s : State) : State :=
  mkState (props s) (mapContainer s) (map s) (markerLayer s) (imageOverlay s)
    (isMapInitialized s) v (imageHeight s) (selectedMarkerLabel s)
    (markersRef s) (defaultBounds s) (route s) (pushed s) (console s).

Definition set_imageHeight (v : Q) (s : State) : State :=
  mkState (props s) (mapContainer s) (map s) (markerLayer s) (imageOverlay s)
    (isMapInitialized s) (L s) v (selectedMarkerLabel s)
    (markersRef s) (defaultBounds s) (route s) (pushed s) (console s).

Definition set_selectedMarkerLabel (v : string) (s : State) : State :=
  mkState (props s) (mapContainer s) (map s) (markerLayer s) (imageOverlay s)
    (isMapInitialized s) (L s) (imageHeight s) v
    (markersRef s) (defaultBounds s) (route s) (pushed s) (console s).

Definition set_markersRef (v : gmap string LMarker) (s : State) : State :=
  mkState (props s) (mapContainer s) (map s) (markerLayer s) (imageOverlay s)
    (isMapInitialized s) (L s) (imageHeight s) (selectedMarkerLabel s)
    v (defaultBounds s) (route s) (pushed s) (console s).

Definition set_defaultBounds (v : option LatLngBounds) (s : State) : State :=
  mkState (props s) (mapContainer s) (map s) (markerLayer s) (imageOverlay s)
    (isMapInitialized s) (L s) (imageHeight s) (selectedMarkerLabel s)
    (markersRef s) v (route s) (pushed s) (console s).

Definition router_push (v : Route) (s : State) : State :=
  mkState (props s) (mapContainer s) (map s) (markerLayer s) (imageOverlay s)
    (isMapInitialized s) (L s) (imageHeight s) (selectedMarkerLabel s)
    (markersRef s) (defaultBounds s) v (v :: pushed s) (console s).

Definition add_console (v : string * Error) (s : State) : State :=
  mkState (props s) (mapContainer s) (map s) (markerLayer s) (imageOverlay s)
    (isMapInitialized s) (L s) (imageHeight s) (selectedMarkerLabel s)
    (markersRef s) (defaultBounds s) (route s) (pushed s) (console s ++ [v])%list.

(** ** The state-and-exception monad *)

Inductive Res (A : Type) :=
| Ok (a : A) (s : State)
| Throw (e : Error) (s : State).
Arguments Ok {A} a s.
Arguments Throw {A} e s.

Definition M (A : Type) : Type := State -> Res A.

#[global] Instance M_ret : MRet M := fun A a s => Ok a s.

#[global] Instance M_bind : MBind M := fun A B f c s =>
  match c s with
  | Ok a s' => f a s'
  | Throw e s' => Throw e s'
  end.

Definition throw {A} (e : Error) : M A := fun s => Throw e s.

Definition gets {A} (f : State -> A) : M A := fun s => Ok (f s) s.

Definition modify (f : State -> State) : M unit := fun s => Ok tt (f s).

(** [try { body } catch (error) { handler error }] *)
Definition try_catch {A} (body : M A) (handler : Error -> M A) : M A := fun s =>
  match body s with
  | Ok a s' => Ok a s'
  | Throw e s' => handler e s'
  end.

Fixpoint forEach {A} (l : list A) (f : A -> M unit) : M unit :=
  match l with
  | [] => mret tt
  | a :: l' => f a ;; forEach l' f
  end.

(** The state a computation leaves behind, thrown or not. *)
Definition final {A} (r : Res A) : State :=
  match r with Ok _ s => s | Throw _ s => s end.

Definition threw {A} (r : Res A) : bool :=
  match r with Ok _ _ => false | Throw _ _ => true end.

(** JavaScript truthiness of a possibly-null reference and of a string. *)
Definition truthy {A} (o : option A) : bool :=
  match o with Some _ => true | None => false end.

Definition truthy_str (o : option string) : bool :=
  match o with
  | Some n => negb (String.eqb n "")
  | None => false
  end.

(** ** Calls into the engine through the component's refs

    Each of these reads the ref it is called on and throws a [TypeError] when
    the ref is [null], as the JavaScript member access does. *)

Definition null_deref (ref : string) : Error :=
  TypeError ("Cannot read properties of null: " ++ ref).

Definition undefined_deref (what : string) : Error :=
  TypeError ("Cannot read properties of undefined: " ++ what).

Definition useL : M Leaflet := fun s =>
  match L s with
  | Some l => Ok l s
  | None => Throw (null_deref "L") s
  end.

Definition useMap : M LMap := fun s =>
  match map s with
  | Some m => Ok m s
  | None => Throw (null_deref "map") s
  end.

(** [map.value.fitBounds(b, opts)] *)
Definition map_fitBounds (b : LatLngBounds) (opts : option ViewOptions) : M unit :=
  m ← useMap;
  modify (set_map (Some (mkLMap (FitBounds b opts) (maxBounds m) (layers m)))).

(** [map.value.setView(center, zoom, opts)] *)
Definition map_setView (center : LatLng) (zoom : Q) (opts : option ViewOptions) : M unit :=
  m ← useMap;
  modify (set_map (Some (mkLMap (SetView center zoom opts) (maxBounds m) (layers m)))).

(** [map.value.setMaxBounds(b)] *)
Definition map_setMaxBounds (b : LatLngBounds) : M unit :=
  m ← useMap;
  modify (set_map (Some (mkLMap (view m) (Some b) (layers m)))).

(** [layer.addTo(map.value)] *)
Definition map_addLayer (k : LayerKind) : M unit :=
  m ← useMap;
  modify (set_map (Some (mkLMap (view m) (maxBounds m) (layers m ++ [k])%list))).

(** [map.value.unproject(p, zoom)] *)
Definition map_unproject (p : Q * Q) (zoom : Z) : M LatLng :=
  _ ← useMap;
  mret (unproject p zoom).

(** [markerLayer.value.clearLayers()] *)
Definition markerLayer_clearLayers : M unit := fun s =>
  match markerLayer s with
  | Some _ => Ok tt (set_markerLayer (Some []) s)
  | None => Throw (null_deref "markerLayer") s
  end.

(** [mapMarker.addTo(markerLayer.value)] *)
Definition markerLayer_addLayer (mapMarker : LMarker) : M LMarker := fun s =>
  match markerLayer s with
  | Some hs => Ok mapMarker (set_markerLayer (Some (hs ++ [mapMarker])%list) s)
  | None => Throw (null_deref "markerLayer") s
  end.

(** [L.value.marker(point, { icon }).addTo(markerLayer.value).on("click", ...)] *)
Definition L_marker (point : LatLng) (markerIcon : DivIcon) (clickLabel : string) : M LMarker :=
  _ ← useL;
  markerLayer_addLayer (mkLMarker point markerIcon clickLabel).

(** [selectedMarker.getLatLng()] on the result of a dictionary lookup. *)
Definition getLatLng (selectedMarker : option LMarker) : M LatLng :=
  match selectedMarker with
  | Some mk => mret (latlng mk)
  | None => throw (undefined_deref "getLatLng")
  end.

Definition console_error (msg : string) (e : Error) : M unit :=
  modify (add_console (msg, e)).

(** ** The functions of the component *)

Definition animated : option ViewOptions :=
  Some {| animate := true; duration := 0.5 |}.

Definition setQueryParam (name : string) : M unit :=
  r ← gets route;
  modify (router_push {| path := path r;
                       query_name := if String.eqb name "" then None else Some name |}).

Definition setStateFromQueryParam : M unit :=
  name ← gets (fun s => query_name (route s));
  match name with
  | Some n =>
      if negb (truthy_str name) then mret tt else
      modify (set_selectedMarkerLabel n);;
      m ← gets map;
      if truthy m then
        selectedMarker ← gets (fun s => markersRef s !! n);
        center ← getLatLng selectedMarker;
        map_setView center 1 animated
      else mret tt
  | None => mret tt
  end.

Definition dq : string := String (Ascii.ascii_of_nat 34) EmptyString.
Definition nl : string := String (Ascii.ascii_of_nat 10) EmptyString.

Definition div_open (indent cls selectedClass : string) : string :=
  indent ++ "<div class=" ++ dq ++ cls ++ " " ++ selectedClass ++ dq ++ ">".

(** The two template literals of [createMarkerIcon]. *)
Definition markerClassName (selectedClass : string) : string :=
  "custom-marker-icon " ++ selectedClass.

Definition markerHtml (label selectedClass : string) : string :=
  nl ++ div_open "      " "custom-marker-container" selectedClass ++ nl
     ++ div_open "        " "custom-marker-dot" selectedClass ++ "</div>" ++ nl
     ++ div_open "        " "custom-marker-tooltip" selectedClass
     ++ label ++ "</div>" ++ nl
     ++ "      </div>" ++ nl ++ "    ".

Definition createMarkerIcon (label : string) (isSelected : bool) : M DivIcon :=
  l ← gets L;
  if negb (truthy l) then mret EmptyIcon else
  let selectedClass := if isSelected then "selected" else "" in
  _ ← useL;
  mret (MkDivIcon (markerClassName selectedClass) (markerHtml label selectedClass)).

Definition resetMapView : M unit :=
  m ← gets map;
  b ← gets defaultBounds;
  match m, b with
  | Some _, Some db => map_fitBounds db animated
  | _, _ => mret tt
  end.

Record MapBounds := mkMapBounds { bottomLeft : LatLng; topRight : LatLng }.

Definition calculateBounds (width height : Q) (m : LMap) : MapBounds :=
  let bottomLeft := unproject (0%Q, height) 0 in
  let topRight := unproject (width, 0%Q) 0 in
  {| bottomLeft := bottomLeft; topRight := topRight |}.

Definition transformCoordinates (x y : Q) : M (Q * Q) :=
  h ← gets imageHeight;
  mret (x, (h - y)%Q).

(** The callback [updateMarkers] passes to [props.markers.forEach]. *)
Definition placeMarker (marker : Marker.t) : M unit :=
  m ← gets map;
  if negb (truthy m) then mret tt else
  t ← transformCoordinates (Marker.x marker) (Marker.y marker);
  point ← map_unproject (fst t, snd t) 0;
  sel ← gets selectedMarkerLabel;
  let isSelected := String.eqb (Marker.label marker) sel in
  markerIcon ← createMarkerIcon (Marker.label marker) isSelected;
  mapMarker ← L_marker point markerIcon (Marker.label marker);
  modify (fun s => set_markersRef (<[Marker.label marker := mapMarker]> (markersRef s)) s).

Definition updateMarkers : M unit :=
  m ← gets map;
  ml ← gets markerLayer;
  l ← gets L;
  if negb (truthy m) || negb (truthy ml) || negb (truthy l) then mret tt else
  markerLayer_clearLayers;;
  modify (set_markersRef ∅);;
  ms ← gets (fun s => markers (props s));
  forEach ms placeMarker.

Definition handleMarkerClick (label : string) : M unit :=
  sel ← gets selectedMarkerLabel;
  (if String.eqb sel label then
     modify (set_selectedMarkerLabel "");;
     resetMapView
   else
     modify (set_selectedMarkerLabel label);;
     selectedMarker ← gets (fun s => markersRef s !! label);
     m ← gets map;
     if truthy selectedMarker && truthy m then
       center ← getLatLng selectedMarker;
       map_setView center 1 animated
     else mret tt);;
  sel' ← gets selectedMarkerLabel;
  setQueryParam sel';;
  updateMarkers.

(** ** [initializeMap], cut at its suspension points

    A segment runs from one [await] to the next and says whether the function
    then returned or suspended again.  Everything after the first guard is
    inside the [try] block, whose handler logs and rethrows. *)

Inductive Await := AwaitLeaflet | AwaitCss | AwaitImage.

Inductive Outcome := Resolved | Suspended (a : Await).

(** [L.value.map(mapContainer.value, mapOptions)]: no view, no clamp, no layer. *)
Definition emptyMap : LMap := mkLMap ViewUnset None [].

Definition initializeMap_catch (body : M Outcome) : M Outcome :=
  try_catch body (fun error =>
    console_error "Error initializing map:" error;;
    throw error).

(** Entry, up to [await import("leaflet")]. *)
Definition initializeMap_enter : M Outcome :=
  c ← gets mapContainer;
  if negb c then mret Resolved else
  initializeMap_catch (mret (Suspended AwaitLeaflet)).

(** From the loaded module up to [await import("leaflet/dist/leaflet.css")]. *)
Definition initializeMap_leaflet : M Outcome :=
  initializeMap_catch (
    modify (set_L (Some LeafletModule));;
    mret (Suspended AwaitCss)).

(** From the loaded stylesheet up to the [await] of the image promise. *)
Definition initializeMap_css : M Outcome :=
  initializeMap_catch (
    _ ← useL;
    modify (set_map (Some emptyMap));;
    m ← gets map;
    if negb (truthy m) then throw (JsError "Map not initialized") else
    mret (Suspended AwaitImage)).

(** From [img.onload] to the end; [width] and [height] are those of [img]. *)
Definition initializeMap_image (width height : Z) : M Outcome :=
  initializeMap_catch (
    modify (set_imageHeight (inject_Z height));;
    m ← useMap;
    let mb := calculateBounds (inject_Z width) (inject_Z height) m in
    _ ← useL;
    let bounds := newLatLngBounds (bottomLeft mb) (topRight mb) in
    modify (set_defaultBounds (Some bounds));;
    let padding := 10%Q in
    let maxBounds := pad bounds (padding / inject_Z (Z.max width height)) in
    map_setMaxBounds maxBounds;;
    url ← gets (fun s => floorPlanUrl (props s));
    _ ← useL;
    map_addLayer ImageLayer;;
    modify (set_imageOverlay (Some (mkImageOverlay url bounds)));;
    _ ← useL;
    map_addLayer MarkerLayer;;
    modify (set_markerLayer (Some []));;
    map_fitBounds bounds None;;
    updateMarkers;;
    modify (set_isMapInitialized true);;
    mret Resolved).

(** An awaited promise rejects with [e]: the [await] throws inside the [try]. *)
Definition initializeMap_rejected (e : Error) : M Outcome :=
  initializeMap_catch (throw e).

Definition load_error : Error := JsError "Failed to load floor plan".

(** ** The event loop *)

(** The promise returned by [initializeMap()]. *)
Inductive Promise :=
| NotStarted
| Pending (a : Await)
| Fulfilled
| Rejected (e : Error).

Record Config := mkConfig { st : State; init : Promise }.

(** [initializeMap().then(() => setStateFromQueryParam()).catch(error =>
    console.error("Failed to initialize map:", error))], applied to the result
    of a segment. *)
Definition onMounted_chain (r : Res Outcome) : Config :=
  match r with
  | Ok (Suspended a) s => mkConfig s (Pending a)
  | Ok Resolved s =>
      mkConfig
        (final (try_catch setStateFromQueryParam
                  (console_error "Failed to initialize map:") s))
        Fulfilled
  | Throw e s =>
      mkConfig (final (console_error "Failed to initialize map:" e s)) (Rejected e)
  end.

Inductive Event :=
| Mount
| LeafletLoaded
| StylesLoaded
| ImportFailed
| ImageLoaded (width height : Z)
| ImageFailed
| MarkerClicked (label : string)   (* a button or a marker handle is clicked *)
| SelectionWatcher.                (* [watch(() => selectedMarkerLabel.value, updateMarkers)] *)

Definition step (c : Config) (ev : Event) : option Config :=
  match ev, init c with
  | Mount, NotStarted =>
      Some (onMounted_chain (initializeMap_enter (st c)))
  | LeafletLoaded, Pending AwaitLeaflet =>
      Some (onMounted_chain (initializeMap_leaflet (st c)))
  | StylesLoaded, Pending AwaitCss =>
      Some (onMounted_chain (initializeMap_css (st c)))
  | ImportFailed, Pending AwaitLeaflet
  | ImportFailed, Pending AwaitCss =>
      Some (onMounted_chain (initializeMap_rejected ImportError (st c)))
  | ImageLoaded w h, Pending AwaitImage =>
      Some (onMounted_chain (initializeMap_image w h (st c)))
  | ImageFailed, Pending AwaitImage =>
      Some (onMounted_chain (initializeMap_rejected load_error (st c)))
  | MarkerClicked l, NotStarted => None
  | MarkerClicked l, p =>
      Some (mkConfig (final (handleMarkerClick l (st c))) p)
  | SelectionWatcher, NotStarted => None
  | SelectionWatcher, p =>
      Some (mkConfig (final (updateMarkers (st c))) p)
  | _, _ => None
  end.

Fixpoint run (c : Config) (evs : list Event) : option Config :=
  match evs with
  | [] => Some c
  | ev :: evs' =>
      match step c ev with
      | Some c' => run c' evs'
      | None => None
      end
  end.

(** The refs as the script initialises them, for given props and location. *)
Definition initialState (p : FloorMapProps) (r : Route) : State :=
  {| props := p;
     mapContainer := true;
     map := None;
     markerLayer := None;
     imageOverlay := None;
     isMapInitialized := false;
     L := None;
     imageHeight := 0;
     selectedMarkerLabel := "";
     markersRef := ∅;
     defaultBounds := None;
     route := r;
     pushed := [];
     console := [] |}.

Definition initialConfig (p : FloorMapProps) (r : Route) : Config :=
  mkConfig (initialState p r) NotStarted.

Definition reachable (p : FloorMapProps) (r : Route) (c : Config) : Prop :=
  exists evs, run (initialConfig p r) evs = Some c.

(** ** Observations *)

(** The handle carries the [selected] class. *)
Definition selected_styling (h : LMarker) : bool :=
  match icon h with
  | MkDivIcon cls _ => String.eqb cls "custom-marker-icon selected"
  | EmptyIcon => false
  end.

(** The camera of a state, when there is a map. *)
Definition camera (s : State) : option View := view <$> map s.

(** Every guard of [updateMarkers] passes. *)
Definition mapReady (s : State) : Prop :=
  is_Some (map s) /\ is_Some (markerLayer s) /\ is_Some (L s).

Definition labels (s : State) : list string :=
  List.map Marker.label (markers (props s)).

(** Before initialisation completes: one of the three refs [updateMarkers]
    checks is still unset. *)
Definition uninitialised (s : State) : Prop :=
  map s = None \/ markerLayer s = None \/ L s = None.

(** Nothing of the image has been captured, computed or drawn. *)
Definition nothing_rendered (s : State) : Prop :=
  isMapInitialized s = false /\ imageHeight s = 0%Q /\ defaultBounds s = None /\
  imageOverlay s = None /\ markerLayer s = None /\ markersRef s = ∅.

(** A run of [selectMarker] calls. *)
Definition clicks (ls : list string) (s : State) : State :=
  foldl (fun s l => final (handleMarkerClick l s)) s ls.

(** ** What a reconciliation pass builds *)

Definition handle_of (s : State) (marker : Marker.t) : LMarker :=
  let isSelected := String.eqb (Marker.label marker) (selectedMarkerLabel s) in
  let selectedClass := if isSelected then "selected" else "" in
  {| latlng := unproject (Marker.x marker, (imageHeight s - Marker.y marker)%Q) 0;
     icon := MkDivIcon (markerClassName selectedClass)
                       (markerHtml (Marker.label marker) selectedClass);
     onClick := Marker.label marker |}.

Definition register (reg : gmap string LMarker) (h : LMarker) : gmap string LMarker :=
  <[onClick h := h]> reg.

Definition reconciled (s : State) : State :=
  if truthy (map s) && truthy (markerLayer s) && truthy (L s) then
    let hs := List.map (handle_of s) (markers (props s)) in
    set_markersRef (foldl register ∅ hs) (set_markerLayer (Some hs) s)
  else s.

(** Initialisation completed: the state [Ready] of the spec. *)
Definition ready (s : State) : Prop :=
  mapReady s /\ is_Some (defaultBounds s) /\ isMapInitialized s = true.

(** The state invariant of the event loop, by the state of the promise. *)
Definition fresh (s : State) : Prop :=
  mapContainer s = true /\ nothing_rendered s.

Definition inv (c : Config) : Prop :=
  match init c with
  | NotStarted => fresh (st c) /\ map (st c) = None /\ L (st c) = None
  | Pending AwaitLeaflet => fresh (st c) /\ map (st c) = None /\ L (st c) = None
  | Pending AwaitCss => fresh (st c) /\ map (st c) = None /\ is_Some (L (st c))
  | Pending AwaitImage => fresh (st c) /\ is_Some (map (st c)) /\ is_Some (L (st c))
  | Fulfilled => ready (st c)
  | Rejected _ => fresh (st c)
  end.

(** ** Scenarios *)

(** The scenario of the spec: two markers on a 100x50 image. *)
Definition markerA : Marker.t := Marker.mk 1 10 20 "A".
Definition markerB : Marker.t := Marker.mk 2 30 5 "B".
Definition demoProps : FloorMapProps := mkProps "floor.png" [markerA; markerB].
Definition demoRoute : Route := mkRoute "/" None.

Definition state_after (p : FloorMapProps) (r : Route) (evs : list Event) : State :=
  match run (initialConfig p r) evs with
  | Some c => st c
  | None => initialState p r
  end.

(** Mounted, engine created, image still loading. *)
Definition demoLoading : Config :=
  mkConfig (state_after demoProps demoRoute [Mount; LeafletLoaded; StylesLoaded])
           (Pending AwaitImage).

(** Initialisation completed. *)
Definition demoReady : State :=
  state_after demoProps demoRoute [Mount; LeafletLoaded; StylesLoaded; ImageLoaded 100 50].

(** ** Closed forms of the camera moves, the write-back and a click *)

Definition with_view (v : View) (s : State) : State :=
  match map s with
  | Some m => set_map (Some (mkLMap v (maxBounds m) (layers m))) s
  | None => s
  end.

Definition reset_view (s : State) : State :=
  match defaultBounds s with
  | Some db => with_view (FitBounds db animated) s
  | None => s
  end.

Definition fly_to (label : string) (s : State) : State :=
  match markersRef s !! label with
  | Some h => with_view (SetView (latlng h) 1 animated) s
  | None => s
  end.

Definition written_back (s : State) : State :=
  router_push {| path := path (route s);
               query_name := if String.eqb (selectedMarkerLabel s) ""
                             then None else Some (selectedMarkerLabel s) |} s.

Definition clicked (label : string) (s : State) : State :=
  reconciled (written_back
    (if String.eqb (selectedMarkerLabel s) label
     then reset_view (set_selectedMarkerLabel "" s)
     else fly_to label (set_selectedMarkerLabel label s))).

(** The exact rectangle of a [width] x [height] image and its padded clamp. *)
Definition image_bounds (width height : Z) (m : LMap) : LatLngBounds :=
  let mb := calculateBounds (inject_Z width) (inject_Z height) m in
  newLatLngBounds (bottomLeft mb) (topRight mb).

Definition image_maxBounds (width height : Z) (m : LMap) : LatLngBounds :=
  pad (image_bounds width height m) (10 / inject_Z (Z.max width height)).

Definition image_shown (width height : Z) (s : State) : State :=
  match map s with
  | Some m =>
      let b := image_bounds width height m in
      set_isMapInitialized true
        (reconciled
           (set_map (Some (mkLMap (FitBounds b None)
                             (Some (image_maxBounds width height m))
                             (layers m ++ [ImageLayer; MarkerLayer])%list))
              (set_markerLayer (Some [])
                 (set_imageOverlay (Some (mkImageOverlay (floorPlanUrl (props s)) b))
                    (set_defaultBounds (Some b)
                       (set_imageHeight (inject_Z height) s))))))
  | None => s
  end.

(** The one marker ["A"], restored from a location that names ["B"]. *)
Definition onlyAProps : FloorMapProps := mkProps "floor.png" [markerA].
Definition staleRoute : Route := mkRoute "/" (Some "B").
Definition mountEvents : list Event :=
  [Mount; LeafletLoaded; StylesLoaded; ImageLoaded 100 50].

(** A marker list whose only marker has the empty label. *)
Definition unnamedProps : FloorMapProps :=
  mkProps "floor.png" [Marker.mk 1 10 20 ""].
Definition unnamedReady : State := state_after unnamedProps demoRoute mountEvents.


(** Initialised with the stale location, before [setStateFromQueryParam]. *)
Definition staleInitialised : State :=
  final (initializeMap_image 100 50
           (state_after onlyAProps staleRoute [Mount; LeafletLoaded; StylesLoaded])).

Definition demoReadyConfig : Config := mkConfig demoReady Fulfilled.



(** ** The template

    One button per marker, active when its label is the selection, and a
    loading indicator shown until [isMapInitialized]. *)



Definition showsLoading (s : State) : bool := negb (isMapInitialized s).

(** ** Closed form of the restore, and what holds once the image is shown *)

Definition restored (s : State) : Res unit :=
  match query_name (route s) with
  | Some n =>
      if String.eqb n "" then Ok tt s else
      match map s with
      | Some _ =>
          match markersRef s !! n with
          | Some h =>
              Ok tt (with_view (SetView (latlng h) 1 animated) (set_selectedMarkerLabel n s))
          | None =>
              Throw (undefined_deref "getLatLng") (set_selectedMarkerLabel n s)
          end
      | None => Ok tt (set_selectedMarkerLabel n s)
      end
  | None => Ok tt s
  end.

(** The name key of the location, empty when absent. *)
Definition effective_name (s : State) : string :=
  match query_name (route s) with
  | Some n => n
  | None => ""
  end.

Definition synced (s : State) : Prop := effective_name s = selectedMarkerLabel s.

(** Where a marker is drawn for a captured image height. *)
Definition position (imgHeight : Q) (marker : Marker.t) : LatLng :=
  unproject (Marker.x marker, (imgHeight - Marker.y marker)%Q) 0.

(** The handles a pass builds when the selection is [sel]. *)
Definition handles_for (sel : string) (s : State) : list LMarker :=
  List.map (handle_of (set_selectedMarkerLabel sel s)) (markers (props s)).

(** The camera looks at the whole image or at one of the markers. *)
Definition camera_target (s : State) (v : View) : Prop :=
  (exists db o, defaultBounds s = Some db /\ v = FitBounds db o) \/
  (exists marker, In marker (markers (props s)) /\
     v = SetView (position (imageHeight s) marker) 1 animated).

(** The state once an image of [w] x [h] pixels has been shown: metrics,
    bounds, clamp and layers are those of the image, and the layer and the
    registry are what a pass built for some selection [sel]. *)
Definition placed (w h : Z) (s : State) : Prop :=
  isMapInitialized s = true /\
  imageHeight s = inject_Z h /\
  defaultBounds s = Some (image_bounds w h emptyMap) /\
  imageOverlay s
  = Some (mkImageOverlay (floorPlanUrl (props s)) (image_bounds w h emptyMap)) /\
  is_Some (L s) /\
  (exists v, map s = Some (mkLMap v (Some (image_maxBounds w h emptyMap))
                             [ImageLayer; MarkerLayer]) /\
             camera_target s v) /\
  (exists sel, markerLayer s = Some (handles_for sel s) /\
               markersRef s = foldl register ∅ (handles_for sel s)).

(** While the image loads the map is the one [L.map] returned. *)
Definition inv_image (c : Config) : Prop :=
  match init c with
  | Pending AwaitImage => map (st c) = Some emptyMap
  | Fulfilled => exists w h, placed w h (st c)
  | _ => True
  end.

(** Until the promise is fulfilled the selection is empty or already written
    to the location; from then on the two agree. *)
Definition inv_synced (c : Config) : Prop :=
  match init c with
  | Fulfilled => synced (st c)
  | _ => selectedMarkerLabel (st c) = "" \/ synced (st c)
  end.

Definition inv_all (c : Config) : Prop := inv c /\ inv_image c /\ inv_synced c.

(** A state whose container ref is unset. *)
Definition detached (p : FloorMapProps) (r : Route) : State :=
  {| props := p;
     mapContainer := false;
     map := None;
     markerLayer := None;
     imageOverlay := None;
     isMapInitialized := false;
     L := None;
     imageHeight := 0;
     selectedMarkerLabel := "";
     markersRef := ∅;
     defaultBounds := None;
     route := r;
     pushed := [];
     console := [] |}.




(** Mounted, the library still loading. *)
Definition demoImporting : Config :=
  mkConfig (state_after demoProps demoRoute [Mount]) (Pending AwaitLeaflet).

(** * Proofs *)

Ltac munfold :=
  unfold mbind, M_bind, mret, M_ret, gets, modify, throw, try_catch in *.

Ltac open_state s := destruct s; simpl in *; subst; simpl.

Lemma placeMarker_ready s m l hs marker :
  map s = Some m -> L s = Some l -> markerLayer s = Some hs ->
  placeMarker marker s =
  Ok tt (set_markersRef (register (markersRef s) (handle_of s marker))
           (set_markerLayer (Some (hs ++ [handle_of s marker])%list) s)).
Proof.
  intros Hm Hl Hml.
  unfold placeMarker, transformCoordinates, map_unproject, createMarkerIcon,
    L_marker, markerLayer_addLayer, useMap, useL.
  munfold. open_state s. reflexivity.
Qed.

Lemma forEach_placeMarker ms : forall s m l hs,
  map s = Some m -> L s = Some l -> markerLayer s = Some hs ->
  forEach ms placeMarker s =
  Ok tt (set_markersRef (foldl register (markersRef s) (List.map (handle_of s) ms))
           (set_markerLayer (Some (hs ++ List.map (handle_of s) ms)%list) s)).
Proof.
  induction ms as [|marker ms IH]; intros s m l hs Hm Hl Hml.
  - simpl. rewrite app_nil_r. open_state s. reflexivity.
  - cbn [forEach]. unfold mbind at 1, M_bind at 1.
    rewrite (placeMarker_ready s m l hs marker Hm Hl Hml).
    erewrite IH by (open_state s; reflexivity).
    open_state s. rewrite <- app_assoc. reflexivity.
Qed.

Lemma updateMarkers_spec s : updateMarkers s = Ok tt (reconciled s).
Proof.
  unfold updateMarkers, reconciled. munfold.
  destruct (map s) as [m|] eqn:Hm; simpl; [|reflexivity].
  destruct (markerLayer s) as [hs|] eqn:Hml; simpl; [|reflexivity].
  destruct (L s) as [l|] eqn:Hl; simpl; [|reflexivity].
  unfold markerLayer_clearLayers. rewrite Hml.
  erewrite forEach_placeMarker by (open_state s; reflexivity).
  open_state s. reflexivity.
Qed.

Lemma resetMapView_spec s : resetMapView s = Ok tt (reset_view s).
Proof.
  unfold resetMapView, reset_view, with_view, map_fitBounds, useMap. munfold.
  destruct (map s) eqn:Hm, (defaultBounds s) eqn:Hb; try reflexivity.
  rewrite Hm. reflexivity.
Qed.

Lemma setQueryParam_spec s :
  setQueryParam (selectedMarkerLabel s) s = Ok tt (written_back s).
Proof. reflexivity. Qed.

Lemma handleMarkerClick_spec label s :
  handleMarkerClick label s = Ok tt (clicked label s).
Proof.
  unfold handleMarkerClick, clicked.
  unfold mbind at 1, M_bind at 1, gets at 1.
  unfold mbind at 1, M_bind at 1.
  destruct (String.eqb (selectedMarkerLabel s) label).
  - unfold mbind at 1, M_bind at 1, modify at 1.
    rewrite resetMapView_spec.
    unfold mbind at 1, M_bind at 1, gets at 1.
    unfold mbind at 1, M_bind at 1.
    rewrite setQueryParam_spec. apply updateMarkers_spec.
  - set (s1 := set_selectedMarkerLabel label s).
    assert (Hfly : forall k : unit -> M unit,
      (modify (set_selectedMarkerLabel label);;
       selectedMarker ← gets (fun s => markersRef s !! label);
       m ← gets map;
       if truthy selectedMarker && truthy m then
         center ← getLatLng selectedMarker;
         map_setView center 1 animated
       else mret tt) s = Ok tt (fly_to label s1)).
    { intros _. subst s1. munfold.
      unfold fly_to, with_view, getLatLng, map_setView, useMap. simpl.
      destruct (markersRef s !! label) eqn:Hh; simpl; [|reflexivity].
      destruct (map s) eqn:Hm; simpl; [|reflexivity].
      munfold. simpl. rewrite Hm. reflexivity. }
    rewrite (Hfly (fun _ => mret tt)).
    unfold mbind at 1, M_bind at 1, gets at 1.
    unfold mbind at 1, M_bind at 1.
    rewrite setQueryParam_spec. apply updateMarkers_spec.
Qed.

#[local] Arguments updateMarkers : simpl never.
#[local] Arguments reconciled : simpl never.

Lemma initializeMap_image_spec w h s :
  is_Some (map s) -> is_Some (L s) ->
  initializeMap_image w h s = Ok Resolved (image_shown w h s).
Proof.
  intros [m Hm] [l Hl].
  unfold initializeMap_image, initializeMap_catch, image_shown, image_maxBounds, image_bounds.
  unfold map_setMaxBounds, map_addLayer, map_fitBounds, useMap, useL.
  munfold. open_state s. rewrite updateMarkers_spec. rewrite <- app_assoc. reflexivity.
Qed.

Lemma reconciled_uninitialised s : uninitialised s -> reconciled s = s.
Proof.
  unfold uninitialised, reconciled.
  intros [H | [H | H]]; rewrite H; simpl; rewrite ?andb_false_r; reflexivity.
Qed.

Lemma clicked_nothing_rendered label s :
  nothing_rendered s ->
  clicked label s =
  written_back (set_selectedMarkerLabel
                  (if String.eqb (selectedMarkerLabel s) label then "" else label) s).
Proof.
  intros (_ & _ & Hb & _ & Hml & Href). unfold clicked.
  rewrite reconciled_uninitialised.
  - destruct (String.eqb _ _).
    + unfold reset_view. simpl. rewrite Hb. reflexivity.
    + unfold fly_to. simpl. rewrite Href, lookup_empty. reflexivity.
  - right; left. destruct (String.eqb _ _).
    + unfold reset_view. simpl. rewrite Hb. exact Hml.
    + unfold fly_to. simpl. rewrite Href, lookup_empty. exact Hml.
Qed.

Lemma clicked_fresh label s : fresh s -> fresh (clicked label s).
Proof.
  intros [Hc Hn]. rewrite (clicked_nothing_rendered _ _ Hn).
  destruct Hn as (? & ? & ? & ? & ? & ?).
  repeat split; simpl; assumption.
Qed.

Lemma clicked_map_L label s :
  (map (clicked label s) = None <-> map s = None) /\ L (clicked label s) = L s.
Proof.
  unfold clicked, reconciled, written_back, reset_view, fly_to, with_view.
  repeat case_match; open_state s; repeat split; intros; congruence.
Qed.


Ltac open_ready H :=
  destruct H as (([? ?] & [? ?] & [? ?]) & [? ?] & ?).

Lemma reconciled_ready s : ready s -> ready (reconciled s).
Proof.
  intros H. open_ready H. unfold reconciled, ready, mapReady.
  open_state s. eauto 10.
Qed.

Lemma clicked_ready label s : ready s -> ready (clicked label s).
Proof.
  intros H. unfold clicked. apply reconciled_ready.
  open_ready H. unfold written_back, reset_view, fly_to, with_view, ready, mapReady.
  repeat case_match; open_state s; simplify_eq; eauto 10.
Qed.

Lemma setStateFromQueryParam_ready s :
  ready s ->
  ready (final (try_catch setStateFromQueryParam
                  (console_error "Failed to initialize map:") s)).
Proof.
  intros H. open_ready H.
  unfold setStateFromQueryParam, getLatLng, map_setView, useMap, console_error, ready, mapReady.
  munfold. repeat (case_match; simpl); open_state s; simplify_eq; eauto 10.
Qed.

Lemma image_shown_ready w h s :
  is_Some (map s) -> is_Some (L s) -> ready (image_shown w h s).
Proof.
  intros [m Hm] [l Hl]. unfold image_shown. rewrite Hm.
  unfold reconciled, ready, mapReady. open_state s. eauto 10.
Qed.

Lemma initializeMap_enter_spec s :
  mapContainer s = true -> initializeMap_enter s = Ok (Suspended AwaitLeaflet) s.
Proof. intros H. unfold initializeMap_enter. munfold. rewrite H. reflexivity. Qed.

Lemma initializeMap_css_spec s :
  is_Some (L s) ->
  initializeMap_css s =
  Ok (Suspended AwaitImage) (set_map (Some emptyMap) s).
Proof.
  intros [l Hl]. unfold initializeMap_css, initializeMap_catch, useL. munfold.
  rewrite Hl. reflexivity.
Qed.

Lemma initializeMap_rejected_spec e s :
  initializeMap_rejected e s = Throw e (add_console ("Error initializing map:", e) s).
Proof. reflexivity. Qed.

Lemma reconciled_fresh s : fresh s -> reconciled s = s.
Proof.
  intros (_ & _ & _ & _ & _ & H & _). apply reconciled_uninitialised. right; left; exact H.
Qed.

Ltac solve_fresh :=
  unfold fresh, nothing_rendered in *; simpl; intuition (eauto; congruence).

Lemma step_inv c ev c' : inv c -> step c ev = Some c' -> inv c'.
Proof.
  destruct c as [s p]. unfold inv, step. simpl.
  destruct ev, p as [|[]| |]; simpl; intros Hinv Hstep; simplify_eq; simpl.
  - destruct Hinv as (Hf & ? & ?).
    rewrite initializeMap_enter_spec by apply Hf. simpl. auto.
  - solve_fresh.
  - destruct Hinv as (Hf & ? & HL).
    rewrite (initializeMap_css_spec _ HL). simpl. solve_fresh.
  - solve_fresh.
  - solve_fresh.
  - destruct Hinv as (Hf & Hm & HL).
    rewrite (initializeMap_image_spec _ _ _ Hm HL). simpl.
    apply setStateFromQueryParam_ready, image_shown_ready; assumption.
  - solve_fresh.
  - rewrite handleMarkerClick_spec. simpl. destruct Hinv as (Hf & Hm & HL).
    destruct (clicked_map_L label s) as [[_ Hm'] HL'].
    split; [apply clicked_fresh; exact Hf|]. rewrite HL'. auto.
  - rewrite handleMarkerClick_spec. simpl. destruct Hinv as (Hf & Hm & HL).
    destruct (clicked_map_L label s) as [[_ Hm'] HL'].
    split; [apply clicked_fresh; exact Hf|]. rewrite HL'. auto.
  - rewrite handleMarkerClick_spec. simpl. destruct Hinv as (Hf & Hm & HL).
    destruct (clicked_map_L label s) as [[Hm' _] HL'].
    split; [apply clicked_fresh; exact Hf|]. rewrite HL'. split; [|exact HL].
    destruct (map (clicked label s)) eqn:E; [eauto|].
    rewrite Hm' in Hm by reflexivity. destruct Hm; discriminate.
  - rewrite handleMarkerClick_spec. simpl. apply clicked_ready; exact Hinv.
  - rewrite handleMarkerClick_spec. simpl. apply clicked_fresh; exact Hinv.
  - rewrite updateMarkers_spec. simpl. destruct Hinv as (Hf & ?).
    rewrite (reconciled_fresh _ Hf). auto.
  - rewrite updateMarkers_spec. simpl. destruct Hinv as (Hf & ?).
    rewrite (reconciled_fresh _ Hf). auto.
  - rewrite updateMarkers_spec. simpl. destruct Hinv as (Hf & ?).
    rewrite (reconciled_fresh _ Hf). auto.
  - rewrite updateMarkers_spec. simpl. apply reconciled_ready; exact Hinv.
  - rewrite updateMarkers_spec. simpl. rewrite (reconciled_fresh _ Hinv). exact Hinv.
Qed.

Lemma run_inv evs : forall c c', inv c -> run c evs = Some c' -> inv c'.
Proof.
  induction evs as [|ev evs IH]; simpl; intros c c' Hinv Hrun.
  - congruence.
  - destruct (step c ev) as [c1|] eqn:Hstep; [|discriminate].
    eapply IH; [eapply step_inv; eassumption | exact Hrun].
Qed.

Lemma reachable_inv p r c : reachable p r c -> inv c.
Proof.
  intros [evs Hrun]. eapply run_inv; [|exact Hrun].
  unfold inv. simpl. unfold fresh, nothing_rendered. simpl. auto 10.
Qed.

Lemma inject_Z_pos z : (0 < z)%Z -> (0 < inject_Z z)%Q.
Proof. intros H. unfold Qlt. simpl. lia. Qed.

Lemma pad_ratio_pos w h : (0 < w)%Z -> (0 < h)%Z -> (0 < 10 / inject_Z (Z.max w h))%Q.
Proof.
  intros Hw Hh. apply Qlt_shift_div_l.
  - apply inject_Z_pos. lia.
  - rewrite Qmult_0_l. reflexivity.
Qed.

Lemma image_bounds_corners w h m :
  (0 < w)%Z -> (0 < h)%Z ->
  let b := image_bounds w h m in
  (lat (southWest b) == - inject_Z h)%Q /\ (lng (southWest b) == 0)%Q /\
  (lat (northEast b) == 0)%Q /\ (lng (northEast b) == inject_Z w)%Q.
Proof.
  intros Hw Hh. pose proof (inject_Z_pos w Hw). pose proof (inject_Z_pos h Hh).
  unfold image_bounds, calculateBounds, newLatLngBounds, unproject. simpl.
  assert (E : forall q : Q, (q / 2 ^ 0 == q)%Q) by (intros q; simpl; field).
  rewrite !E.
  repeat split.
  - apply Q.min_l. lra.
  - apply Q.min_l. lra.
  - apply Q.max_r. lra.
  - apply Q.max_r. lra.
Qed.

Lemma pad_strictly_contains b r :
  (lat (southWest b) < lat (northEast b))%Q ->
  (lng (southWest b) < lng (northEast b))%Q ->
  (0 < r)%Q ->
  strictly_contains (pad b r) b /\ wf_bounds (pad b r).
Proof.
  destruct b as [[a1 a2] [b1 b2]]. simpl. intros H1 H2 Hr.
  unfold strictly_contains, wf_bounds, pad, newLatLngBounds. simpl.
  assert (Ha1 : (Qabs (a1 - b1) == b1 - a1)%Q).
  { rewrite Qabs_neg by lra. ring. }
  assert (Ha2 : (Qabs (a2 - b2) == b2 - a2)%Q).
  { rewrite Qabs_neg by lra. ring. }
  rewrite !Ha1, !Ha2.
  assert (0 < (b1 - a1) * r)%Q by (apply Qmult_lt_0_compat; lra).
  assert (0 < (b2 - a2) * r)%Q by (apply Qmult_lt_0_compat; lra).
  set (hb := ((b1 - a1) * r)%Q) in *. set (wb := ((b2 - a2) * r)%Q) in *.
  rewrite (Q.min_l (a1 - hb) (b1 + hb)) by lra.
  rewrite (Q.min_l (a2 - wb) (b2 + wb)) by lra.
  rewrite (Q.max_r (a1 - hb) (b1 + hb)) by lra.
  rewrite (Q.max_r (a2 - wb) (b2 + wb)) by lra.
  repeat split; lra.
Qed.

(** ** The registry a pass builds *)


Lemma onClick_handle_of s ms : onClick <$> (List.map (handle_of s) ms) = List.map Marker.label ms.
Proof. induction ms as [|m ms IH]; simpl; [reflexivity | f_equal; exact IH]. Qed.

Lemma reconciled_mapReady s :
  mapReady s ->
  markerLayer (reconciled s) = Some (List.map (handle_of s) (markers (props s))) /\
  markersRef (reconciled s) = foldl register ∅ (List.map (handle_of s) (markers (props s))).
Proof.
  intros ([? Hm] & [? Hml] & [? Hl]). unfold reconciled.
  rewrite Hm, Hml, Hl. simpl. auto.
Qed.

Lemma reconciled_frame s :
  selectedMarkerLabel (reconciled s) = selectedMarkerLabel s /\
  route (reconciled s) = route s /\ pushed (reconciled s) = pushed s /\
  map (reconciled s) = map s /\ console (reconciled s) = console s /\
  props (reconciled s) = props s.
Proof. unfold reconciled. case_match; open_state s; auto 10. Qed.

Lemma selected_styling_handle_of s marker :
  selected_styling (handle_of s marker)
  = String.eqb (Marker.label marker) (selectedMarkerLabel s).
Proof.
  unfold selected_styling, handle_of. simpl.
  destruct (String.eqb (Marker.label marker) (selectedMarkerLabel s)); reflexivity.
Qed.

Lemma filter_selected_handles s ms :
  List.filter selected_styling (List.map (handle_of s) ms)
  = List.map (handle_of s)
      (List.filter (fun m => String.eqb (Marker.label m) (selectedMarkerLabel s)) ms).
Proof.
  induction ms as [|m ms IH]; simpl; [reflexivity|].
  rewrite selected_styling_handle_of.
  destruct (String.eqb (Marker.label m) (selectedMarkerLabel s)); simpl; rewrite IH; reflexivity.
Qed.

Lemma filter_label_absent k ms :
  ~ In k (List.map Marker.label ms) ->
  List.filter (fun m => String.eqb (Marker.label m) k) ms = [].
Proof.
  induction ms as [|m ms IH]; simpl; intros Hn; [reflexivity|].
  destruct (String.eqb_spec (Marker.label m) k) as [E|E].
  - exfalso. apply Hn. left. exact E.
  - apply IH. intros Hin. apply Hn. right. exact Hin.
Qed.

Lemma filter_label_NoDup k ms :
  List.NoDup (List.map Marker.label ms) ->
  (length (List.filter (fun m => String.eqb (Marker.label m) k) ms) <= 1)%nat.
Proof.
  induction ms as [|m ms IH]; simpl; intros Hnd; [lia|].
  inversion Hnd as [|? ? Hnotin Hnd']; subst.
  destruct (String.eqb_spec (Marker.label m) k) as [E|E].
  - subst k. rewrite (filter_label_absent _ _ Hnotin). simpl. lia.
  - apply IH. exact Hnd'.
Qed.

Lemma clicked_mapReady label s : mapReady s -> mapReady (clicked label s).
Proof.
  intros ([? ?] & [? ?] & [? ?]).
  unfold clicked, reconciled, written_back, reset_view, fly_to, with_view, mapReady.
  repeat case_match; open_state s; simplify_eq; eauto 10.
Qed.

Lemma clicked_props label s : props (clicked label s) = props s.
Proof.
  unfold clicked, reconciled, written_back, reset_view, fly_to, with_view.
  repeat case_match; open_state s; reflexivity.
Qed.

Lemma clicks_mapReady ls : forall s,
  mapReady s -> mapReady (clicks ls s) /\ props (clicks ls s) = props s.
Proof.
  unfold clicks.
  induction ls as [|l ls IH]; simpl; intros s Hr; [auto|].
  rewrite handleMarkerClick_spec. simpl.
  destruct (IH (clicked l s) (clicked_mapReady l s Hr)) as [H1 H2].
  split; [exact H1|]. rewrite H2. apply clicked_props.
Qed.

(** ** The claims *)

(** C1: [transformCoordinates] maps [(x, y)] to [(x, imageHeight - y)] for
    every [x], [y] and captured image height, leaves every ref as it was and
    never throws; with height 50 it maps (10, 20) to (10, 30) and (30, 5) to
    (30, 45). *)
Theorem transformCoordinates_flips_y :
  (forall (h x y : Q) (s : State),
     transformCoordinates x y (set_imageHeight h s)
     = Ok (x, (h - y)%Q) (set_imageHeight h s)) /\
  (forall (x y : Q) (s : State),
     transformCoordinates x y s = Ok (x, (imageHeight s - y)%Q) s) /\
  (forall s : State,
     transformCoordinates 10 20 (set_imageHeight 50 s)
     = Ok (10%Q, 30%Q) (set_imageHeight 50 s)) /\
  (forall s : State,
     transformCoordinates 30 5 (set_imageHeight 50 s)
     = Ok (30%Q, 45%Q) (set_imageHeight 50 s)).
Proof. repeat split. Qed.

(** C10: a reconciliation pass returns normally and leaves the selected label,
    the current location (the navigation-state key) and the list of pushed
    locations exactly as they were. *)
Theorem updateMarkers_keeps_selection (s : State) :
  exists s', updateMarkers s = Ok tt s' /\
    selectedMarkerLabel s' = selectedMarkerLabel s /\
    route s' = route s /\ pushed s' = pushed s.
Proof.
  exists (reconciled s). split; [apply updateMarkers_spec|].
  destruct (reconciled_frame s) as (? & ? & ? & _). auto.
Qed.



Lemma clicked_markerLayer_None label s :
  markerLayer s = None -> markerLayer (clicked label s) = None.
Proof.
  intros H. unfold clicked.
  assert (E : forall t, markerLayer t = None -> markerLayer (reconciled t) = None).
  { intros t Ht. rewrite reconciled_uninitialised by (right; left; exact Ht). exact Ht. }
  apply E. unfold written_back, reset_view, fly_to, with_view.
  repeat case_match; open_state s; reflexivity.
Qed.

Lemma clicks_markerLayer_None ls : forall s,
  markerLayer s = None -> markerLayer (clicks ls s) = None.
Proof.
  unfold clicks.
  induction ls as [|l ls IH]; simpl; intros s H; [exact H|].
  rewrite handleMarkerClick_spec. simpl.
  apply IH, clicked_markerLayer_None, H.
Qed.

Lemma reachable_layer p r c :
  reachable p r c -> mapReady (st c) \/ markerLayer (st c) = None.
Proof.
  intros Hreach. pose proof (reachable_inv _ _ _ Hreach) as Hinv.
  unfold inv in Hinv.
  destruct (init c) as [|[]| |];
    try (right; destruct Hinv as ((_ & _ & _ & _ & _ & H & _) & _); exact H).
  - left. apply Hinv.
  - right. destruct Hinv as (_ & _ & _ & _ & _ & H & _). exact H.
Qed.

(** C9, amended: with unique labels, in every reachable configuration, after
    any run of [handleMarkerClick] calls followed by a reconciliation pass, a
    handle of the marker layer carries the selected styling exactly when its
    label is the current selection, at most one handle does, and none does
    when no marker's label is the current selection; once the map is ready
    the layer holds one handle per marker. *)
Theorem selected_styling_exclusive
    (p : FloorMapProps) (r : Route) (c : Config) (ls : list string) :
  reachable p r c ->
  List.NoDup (labels (st c)) ->
  exists s', updateMarkers (clicks ls (st c)) = Ok tt s' /\
    (mapReady (st c) ->
     exists hs, markerLayer s' = Some hs /\ onClick <$> hs = labels (st c)) /\
    forall hs, markerLayer s' = Some hs ->
      (forall h, h ∈ hs ->
         selected_styling h = true <-> onClick h = selectedMarkerLabel s') /\
      (length (List.filter selected_styling hs) <= 1)%nat /\
      (~ In (selectedMarkerLabel s') (labels (st c)) ->
       List.filter selected_styling hs = []).
Proof.
  intros Hreach Hnd. set (s := st c) in *. set (t := clicks ls s).
  exists (reconciled t). split; [apply updateMarkers_spec|].
  destruct (reconciled_frame t) as (Hsel & _).
  assert (Hready : mapReady s ->
            markerLayer (reconciled t) = Some (List.map (handle_of t) (markers (props s)))).
  { intros Hr. destruct (clicks_mapReady ls s Hr) as [Hr' Hp].
    destruct (reconciled_mapReady t Hr') as [Hml _]. fold t in Hp.
    rewrite Hml, Hp. reflexivity. }
  split.
  { intros Hr. eexists. split; [apply (Hready Hr)|]. apply onClick_handle_of. }
  intros hs Hhs. destruct (reachable_layer _ _ _ Hreach) as [Hr | Hnone].
  - rewrite (Hready Hr) in Hhs. simplify_eq.
    rewrite Hsel, filter_selected_handles, !length_map. unfold labels in *.
    split; [|split].
    + intros h Hin. apply list_elem_of_In, in_map_iff in Hin as (m & <- & _).
      rewrite selected_styling_handle_of. apply String.eqb_eq.
    + apply filter_label_NoDup. exact Hnd.
    + intros Hn. rewrite (filter_label_absent _ _ Hn). reflexivity.
  - exfalso. pose proof (clicks_markerLayer_None ls s Hnone) as Ht. fold t in Ht.
    rewrite reconciled_uninitialised in Hhs by (right; left; exact Ht).
    congruence.
Qed.

Lemma demoReady_reachable : reachable demoProps demoRoute demoReadyConfig.
Proof. exists mountEvents. vm_compute. reflexivity. Qed.

Lemma selected_styling_exclusive_witness :
  List.NoDup (labels (st demoReadyConfig)) /\
  exists s', updateMarkers (clicks ["A"; "B"; "B"; "A"] (st demoReadyConfig)) = Ok tt s' /\
    (mapReady (st demoReadyConfig) ->
     exists hs, markerLayer s' = Some hs /\ onClick <$> hs = labels (st demoReadyConfig)) /\
    forall hs, markerLayer s' = Some hs ->
      (forall h, h ∈ hs ->
         selected_styling h = true <-> onClick h = selectedMarkerLabel s') /\
      (length (List.filter selected_styling hs) <= 1)%nat /\
      (~ In (selectedMarkerLabel s') (labels (st demoReadyConfig)) ->
       List.filter selected_styling hs = []).
Proof.
  assert (N : List.NoDup (labels (st demoReadyConfig))).
  { vm_compute. repeat constructor; simpl; intuition discriminate. }
  split; [exact N |].
  exact (selected_styling_exclusive demoProps demoRoute demoReadyConfig
           ["A"; "B"; "B"; "A"] demoReady_reachable N).
Defined.

(** C9 as stated fails: with one marker whose label is the empty string and
    an empty selection, the handle carries the selected styling. *)
Lemma empty_label_styled_selected :
  reachable unnamedProps demoRoute (mkConfig unnamedReady Fulfilled) /\
  List.NoDup (labels unnamedReady) /\
  selectedMarkerLabel (final (updateMarkers unnamedReady)) = "" /\
  exists h, markerLayer (final (updateMarkers unnamedReady)) = Some [h] /\
    List.filter selected_styling [h] <> [].
Proof.
  split.
  { exists mountEvents. vm_compute. reflexivity. }
  split.
  { vm_compute. repeat constructor. simpl. intuition. }
  split.
  { vm_compute. reflexivity. }
  eexists. split.
  { vm_compute. reflexivity. }
  vm_compute. discriminate.
Qed.

Lemma eqb_neq_false (a b : string) : a <> b -> String.eqb a b = false.
Proof. intros H. apply String.eqb_neq. exact H. Qed.









Lemma demoLoading_reachable : reachable demoProps demoRoute demoLoading.
Proof. exists [Mount; LeafletLoaded; StylesLoaded]. vm_compute. reflexivity. Qed.



Lemma run_rejected evs : forall c e c',
  init c = Rejected e -> fresh (st c) ->
  run c evs = Some c' ->
  init c' = Rejected e /\ fresh (st c') /\ console (st c') = console (st c).
Proof.
  induction evs as [|ev evs IH]; simpl; intros c e c' Hi Hf Hrun.
  - simplify_eq. auto.
  - destruct c as [s p]. simpl in *. subst p.
    destruct ev; simpl in Hrun; try discriminate.
    + rewrite handleMarkerClick_spec in Hrun. simpl in Hrun.
      destruct (IH (mkConfig (clicked label s) (Rejected e)) e c' eq_refl
                  (clicked_fresh label s Hf) Hrun) as (? & ? & Hc).
      split; [assumption|]. split; [assumption|]. rewrite Hc. simpl.
      destruct Hf as [_ Hn]. rewrite (clicked_nothing_rendered _ _ Hn). reflexivity.
    + rewrite updateMarkers_spec in Hrun. simpl in Hrun.
      rewrite (reconciled_fresh _ Hf) in Hrun.
      apply (IH (mkConfig s (Rejected e)) e c' eq_refl Hf Hrun).
Qed.

(** C8: when the image fails to load, the promise of [initializeMap] is
    rejected with the load error, which is logged once by [initializeMap] and
    once by the caller; from then on, whatever happens, the promise stays
    rejected, [isMapInitialized] stays false (the loading indicator stays),
    nothing more is logged, and no image height, bounds, overlay, marker layer
    or marker handle is ever set. *)
Theorem image_failure_is_terminal (p : FloorMapProps) (r : Route) (c c' : Config) :
  reachable p r c ->
  step c ImageFailed = Some c' ->
  init c' = Rejected load_error /\
  console (st c')
  = (console (st c) ++ [("Error initializing map:", load_error);
                        ("Failed to initialize map:", load_error)])%list /\
  nothing_rendered (st c') /\
  forall evs c'', run c' evs = Some c'' ->
    init c'' = Rejected load_error /\
    nothing_rendered (st c'') /\
    console (st c'') = console (st c').
Proof.
  intros Hreach Hstep. pose proof (reachable_inv _ _ _ Hreach) as Hinv.
  destruct c as [s pr]. unfold inv, step in *. simpl in *.
  destruct pr as [|[]| |]; simplify_eq. simpl.
  destruct Hinv as (Hf & _).
  assert (Hf' : fresh (add_console ("Failed to initialize map:", load_error)
                         (add_console ("Error initializing map:", load_error) s))).
  { solve_fresh. }
  split; [reflexivity|]. split; [rewrite <- app_assoc; reflexivity|].
  split; [apply Hf'|].
  intros evs c'' Hrun.
  destruct (run_rejected evs (mkConfig _ (Rejected load_error)) load_error c''
              eq_refl Hf' Hrun) as (? & [_ ?] & ?).
  auto.
Qed.

Lemma image_failure_is_terminal_witness :
  exists c',
  step demoLoading ImageFailed = Some c' /\
  init c' = Rejected load_error /\
  console (st c')
  = (console (st demoLoading) ++ [("Error initializing map:", load_error);
                                  ("Failed to initialize map:", load_error)])%list /\
  nothing_rendered (st c') /\
  forall evs c'', run c' evs = Some c'' ->
    init c'' = Rejected load_error /\
    nothing_rendered (st c'') /\
    console (st c'') = console (st c').
Proof.
  eexists. split; [vm_compute; reflexivity|].
  eapply (image_failure_is_terminal demoProps demoRoute demoLoading).
  - exact demoLoading_reachable.
  - vm_compute. reflexivity.
Defined.

(** C7: for positive image dimensions, the segment of [initializeMap] that
    runs once the image has loaded returns normally; it stores the exact
    rectangle of the image in [defaultBounds], sets as the map's clamp that
    rectangle padded by [10 / max(width, height)], and the clamp holds the
    exact rectangle with room to spare on all four sides; both are well-formed
    axis-aligned rectangles. *)
Theorem maxBounds_strictly_contains (w h : Z) (s : State) (m : LMap) :
  (0 < w)%Z -> (0 < h)%Z ->
  map s = Some m -> is_Some (L s) ->
  exists s' m',
    initializeMap_image w h s = Ok Resolved s' /\
    defaultBounds s' = Some (image_bounds w h m) /\
    map s' = Some m' /\
    maxBounds m' = Some (pad (image_bounds w h m) (10 / inject_Z (Z.max w h))) /\
    ((lat (southWest (image_bounds w h m)) == - inject_Z h)%Q /\
     (lng (southWest (image_bounds w h m)) == 0)%Q /\
     (lat (northEast (image_bounds w h m)) == 0)%Q /\
     (lng (northEast (image_bounds w h m)) == inject_Z w)%Q) /\
    strictly_contains (pad (image_bounds w h m) (10 / inject_Z (Z.max w h)))
                      (image_bounds w h m) /\
    wf_bounds (image_bounds w h m) /\
    wf_bounds (pad (image_bounds w h m) (10 / inject_Z (Z.max w h))).
Proof.
  intros Hw Hh Hm HL.
  pose proof (image_bounds_corners w h m Hw Hh) as Hc. cbv zeta in Hc.
  set (b := image_bounds w h m) in *.
  destruct Hc as (C1 & C2 & C3 & C4).
  pose proof (inject_Z_pos w Hw). pose proof (inject_Z_pos h Hh).
  assert (Hlat : (lat (southWest b) < lat (northEast b))%Q) by lra.
  assert (Hlng : (lng (southWest b) < lng (northEast b))%Q) by lra.
  destruct (pad_strictly_contains b _ Hlat Hlng (pad_ratio_pos w h Hw Hh)) as [Hs Hwf].
  rewrite (initializeMap_image_spec w h s) by (rewrite ?Hm; eauto).
  unfold image_shown. rewrite Hm. fold b.
  set (s0 := set_map _ _).
  destruct (reconciled_frame s0) as (_ & _ & _ & Hmap & _).
  eexists. eexists. split; [reflexivity|].
  split.
  { unfold reconciled. case_match; reflexivity. }
  split; [simpl; rewrite Hmap; reflexivity|].
  split; [reflexivity|].
  split; [auto|]. split; [exact Hs|]. split; [|exact Hwf].
  unfold wf_bounds. split; lra.
Qed.

Lemma maxBounds_strictly_contains_witness :
  exists s' m',
    initializeMap_image 100 50 (st demoLoading) = Ok Resolved s' /\
    defaultBounds s' = Some (image_bounds 100 50 emptyMap) /\
    map s' = Some m' /\
    maxBounds m' = Some (pad (image_bounds 100 50 emptyMap) (10 / inject_Z (Z.max 100 50))) /\
    ((lat (southWest (image_bounds 100 50 emptyMap)) == - inject_Z 50)%Q /\
     (lng (southWest (image_bounds 100 50 emptyMap)) == 0)%Q /\
     (lat (northEast (image_bounds 100 50 emptyMap)) == 0)%Q /\
     (lng (northEast (image_bounds 100 50 emptyMap)) == inject_Z 100)%Q) /\
    strictly_contains (pad (image_bounds 100 50 emptyMap) (10 / inject_Z (Z.max 100 50)))
                      (image_bounds 100 50 emptyMap) /\
    wf_bounds (image_bounds 100 50 emptyMap) /\
    wf_bounds (pad (image_bounds 100 50 emptyMap) (10 / inject_Z (Z.max 100 50))).
Proof.
  apply (maxBounds_strictly_contains 100 50 (st demoLoading) emptyMap).
  - lia.
  - lia.
  - vm_compute. reflexivity.
  - vm_compute. eexists. reflexivity.
Defined.

(** C2, the code at a failing input: the location names ["B"], the marker list
    holds only ["A"].  Once the map is initialised, [setStateFromQueryParam]
    sets the selection to ["B"] and then throws a [TypeError] on the missing
    handle; the [catch] of [onMounted] logs it. *)
Theorem restore_absent_marker_throws :
  ~ In "B" (labels staleInitialised) /\
  query_name (route staleInitialised) = Some "B" /\
  setStateFromQueryParam staleInitialised
  = Throw (undefined_deref "getLatLng") (set_selectedMarkerLabel "B" staleInitialised) /\
  run (initialConfig onlyAProps staleRoute) mountEvents
  = Some (mkConfig
            (add_console ("Failed to initialize map:", undefined_deref "getLatLng")
               (set_selectedMarkerLabel "B" staleInitialised))
            Fulfilled).
Proof.
  split.
  { vm_compute. intuition discriminate. }
  split.
  { vm_compute. reflexivity. }
  split.
  { vm_compute. reflexivity. }
  vm_compute. reflexivity.
Qed.

(** * Further properties of the component *)

(** ** The restore *)

Lemma setStateFromQueryParam_spec s : setStateFromQueryParam s = restored s.
Proof.
  unfold setStateFromQueryParam, restored, getLatLng, map_setView, useMap, with_view.
  munfold. simpl.
  destruct (query_name (route s)) as [n|]; [|reflexivity].
  simpl. destruct (String.eqb n ""); simpl; [reflexivity|].
  destruct (map s) as [m|] eqn:Hm; simpl; [|reflexivity].
  destruct (markersRef s !! n) as [h|]; simpl; [|reflexivity].
  munfold. simpl. rewrite Hm. reflexivity.
Qed.

(** ** Lookups in the registry a pass builds *)

Lemma foldl_register_absent hs : forall (reg : gmap string LMarker) l,
  ~ In l (onClick <$> hs) -> foldl register reg hs !! l = reg !! l.
Proof.
  induction hs as [|h hs IH]; intros reg l Hn; cbn [foldl]; [reflexivity|].
  rewrite IH.
  - unfold register. apply lookup_insert_ne. intros E. apply Hn. left. exact E.
  - intros Hin. apply Hn. right. exact Hin.
Qed.

Lemma foldl_register_last hs : forall (reg : gmap string LMarker) l,
  foldl register reg hs !! l
  = match last (List.filter (fun h => String.eqb (onClick h) l) hs) with
    | Some h => Some h
    | None => reg !! l
    end.
Proof.
  induction hs as [|h hs IH]; intros reg l; cbn [foldl List.filter]; [reflexivity|].
  rewrite IH. unfold register.
  destruct (String.eqb_spec (onClick h) l) as [E|E].
  - rewrite last_cons. subst l.
    destruct (last (List.filter _ hs)); [reflexivity|]. apply lookup_insert_eq.
  - destruct (last (List.filter _ hs)); [reflexivity|]. apply lookup_insert_ne. exact E.
Qed.

Lemma foldl_register_elem hs l h :
  foldl register ∅ hs !! l = Some h -> In h hs /\ onClick h = l.
Proof.
  rewrite foldl_register_last.
  destruct (last (List.filter _ hs)) as [h'|] eqn:E.
  - intros [= <-]. apply last_Some_elem_of, list_elem_of_In, filter_In in E.
    destruct E as [? E]. apply String.eqb_eq in E. auto.
  - rewrite lookup_empty. discriminate.
Qed.

Lemma onClick_map (f : Marker.t -> LMarker) ms :
  (forall m, onClick (f m) = Marker.label m) ->
  onClick <$> List.map f ms = List.map Marker.label ms.
Proof.
  intros Hf. induction ms as [|m ms IH]; simpl; [reflexivity|].
  rewrite Hf. f_equal. exact IH.
Qed.

Lemma foldl_register_NoDup (f : Marker.t -> LMarker) ms :
  (forall m, onClick (f m) = Marker.label m) ->
  List.NoDup (List.map Marker.label ms) ->
  forall (reg : gmap string LMarker) m, In m ms ->
  foldl register reg (List.map f ms) !! Marker.label m = Some (f m).
Proof.
  intros Hf. induction ms as [|m0 ms IH]; intros Hnd reg m Hin; [destruct Hin|].
  inversion Hnd as [|? ? Hnotin Hnd']; subst. cbn [List.map foldl].
  destruct Hin as [->|Hin].
  - rewrite foldl_register_absent by (rewrite (onClick_map f ms Hf); exact Hnotin).
    unfold register. rewrite Hf. apply lookup_insert_eq.
  - apply IH; assumption.
Qed.


(** ** What stays true once the image is shown *)

Lemma handle_of_ext s t marker :
  imageHeight s = imageHeight t -> selectedMarkerLabel s = selectedMarkerLabel t ->
  handle_of s marker = handle_of t marker.
Proof. intros Hh Hs. unfold handle_of. rewrite Hh, Hs. reflexivity. Qed.

Lemma handles_for_ext sel s t :
  imageHeight s = imageHeight t -> props s = props t ->
  handles_for sel s = handles_for sel t.
Proof.
  intros Hh Hp. unfold handles_for. rewrite Hp.
  apply map_ext. intros m. apply handle_of_ext; simpl; auto.
Qed.

Lemma handles_for_current s :
  List.map (handle_of s) (markers (props s)) = handles_for (selectedMarkerLabel s) s.
Proof.
  unfold handles_for. apply map_ext. intros m. apply handle_of_ext; reflexivity.
Qed.

Lemma latlng_handle_of s marker :
  latlng (handle_of s marker) = position (imageHeight s) marker.
Proof. reflexivity. Qed.

Lemma camera_target_ext s t v :
  defaultBounds s = defaultBounds t -> imageHeight s = imageHeight t ->
  props s = props t -> camera_target s v -> camera_target t v.
Proof. unfold camera_target. intros -> -> ->. auto. Qed.

Ltac open_placed H :=
  destruct H as (Hinit & Hheight & Hbounds & Hoverlay & [lib Hlib]
                 & (v & Hmap & Hcam) & (sel0 & Hlayer & Href)).

(** A state that differs from a placed one only in selection, camera,
    location and log is placed. *)
Lemma placed_frame w h s t v' :
  placed w h s ->
  props t = props s -> isMapInitialized t = isMapInitialized s ->
  imageHeight t = imageHeight s -> defaultBounds t = defaultBounds s ->
  imageOverlay t = imageOverlay s -> L t = L s ->
  markerLayer t = markerLayer s -> markersRef t = markersRef s ->
  map t = Some (mkLMap v' (Some (image_maxBounds w h emptyMap)) [ImageLayer; MarkerLayer]) ->
  camera_target s v' ->
  placed w h t.
Proof.
  intros H Hp Hi Hh Hb Ho HL Hml Hr Hm Hv. open_placed H.
  unfold placed. rewrite Hi, Hh, Hb, Ho, HL, Hml, Hr, Hp.
  repeat split; try assumption.
  - eauto.
  - exists v'. split; [exact Hm|]. eapply camera_target_ext; [| | |exact Hv]; auto.
  - exists sel0. rewrite (handles_for_ext sel0 t s Hh Hp). auto.
Qed.

Lemma placed_reconciled w h s : placed w h s -> placed w h (reconciled s).
Proof.
  intros H. pose proof H as H0. open_placed H.
  assert (Hr : mapReady s) by (unfold mapReady; rewrite Hmap, Hlayer, Hlib; eauto).
  destruct (reconciled_mapReady s Hr) as [Hml' Href'].
  assert (F : props (reconciled s) = props s /\ isMapInitialized (reconciled s) = isMapInitialized s
              /\ imageHeight (reconciled s) = imageHeight s
              /\ defaultBounds (reconciled s) = defaultBounds s
              /\ imageOverlay (reconciled s) = imageOverlay s /\ L (reconciled s) = L s
              /\ map (reconciled s) = map s).
  { unfold reconciled. case_match; open_state s; auto 10. }
  destruct F as (Fp & Fi & Fh & Fb & Fo & FL & Fm).
  unfold placed. rewrite Fi, Fh, Fb, Fo, FL, Fm, Fp, Hml', Href'.
  repeat split; try assumption.
  - eauto.
  - exists v. split; [exact Hmap|]. eapply camera_target_ext; [| | |exact Hcam]; auto.
  - exists (selectedMarkerLabel s). rewrite handles_for_current.
    rewrite (handles_for_ext _ (reconciled s) s Fh Fp). auto.
Qed.

Lemma placed_fly_to w h s label x :
  placed w h s -> placed w h (fly_to label (set_selectedMarkerLabel x s)).
Proof.
  intros H. pose proof H as H0. open_placed H. unfold fly_to, with_view. simpl.
  destruct (markersRef s !! label) as [hd|] eqn:Hl.
  - rewrite Hmap. eapply placed_frame; try exact H0; try reflexivity.
    right. rewrite Href in Hl. apply foldl_register_elem in Hl as [Hin _].
    unfold handles_for in Hin. apply in_map_iff in Hin as (m & <- & Hm).
    exists m. split; [exact Hm|]. reflexivity.
  - eapply placed_frame; try exact H0; try reflexivity; eassumption.
Qed.

Lemma placed_reset_view w h s x :
  placed w h s -> placed w h (reset_view (set_selectedMarkerLabel x s)).
Proof.
  intros H. pose proof H as H0. open_placed H. unfold reset_view, with_view. simpl.
  rewrite Hbounds, Hmap.
  eapply placed_frame; try exact H0; try reflexivity.
  left. eauto.
Qed.

Lemma placed_written_back w h s : placed w h s -> placed w h (written_back s).
Proof.
  intros H. pose proof H as H0. open_placed H.
  eapply placed_frame; try exact H0; try reflexivity; eassumption.
Qed.

Lemma placed_add_console w h s e : placed w h s -> placed w h (add_console e s).
Proof.
  intros H. pose proof H as H0. open_placed H.
  eapply placed_frame; try exact H0; try reflexivity; eassumption.
Qed.

Lemma placed_set_selected w h s x : placed w h s -> placed w h (set_selectedMarkerLabel x s).
Proof.
  intros H. pose proof H as H0. open_placed H.
  eapply placed_frame; try exact H0; try reflexivity; eassumption.
Qed.

Lemma placed_clicked w h s label : placed w h s -> placed w h (clicked label s).
Proof.
  intros H. unfold clicked. apply placed_reconciled, placed_written_back.
  destruct (String.eqb _ _); [apply placed_reset_view | apply placed_fly_to]; exact H.
Qed.

Lemma restored_fly_to s n :
  query_name (route s) = Some n -> n <> "" ->
  final (restored s) = match map s with
                       | Some _ => fly_to n (set_selectedMarkerLabel n s)
                       | None => set_selectedMarkerLabel n s
                       end.
Proof.
  intros Hq Hn. unfold restored, fly_to. rewrite Hq, (eqb_neq_false _ _ Hn). simpl.
  destruct (map s); [|reflexivity]. destruct (markersRef s !! n); reflexivity.
Qed.

Lemma placed_restored w h s :
  placed w h s ->
  placed w h (final (try_catch setStateFromQueryParam
                       (console_error "Failed to initialize map:") s)).
Proof.
  intros H. unfold try_catch. rewrite setStateFromQueryParam_spec.
  unfold restored.
  destruct (query_name (route s)) as [n|] eqn:Hq; [|exact H].
  destruct (String.eqb n ""); [exact H|].
  pose proof H as H0. open_placed H. rewrite Hmap.
  destruct (markersRef s !! n) as [hd|] eqn:Hl; simpl.
  - pose proof (placed_fly_to w h s n n H0) as P. unfold fly_to in P. simpl in P.
    rewrite Hl in P. exact P.
  - apply placed_add_console, placed_set_selected. exact H0.
Qed.

Lemma placed_image_shown w h s :
  fresh s -> map s = Some emptyMap -> is_Some (L s) -> placed w h (image_shown w h s).
Proof.
  intros Hf Hm [lib Hl]. unfold image_shown. rewrite Hm.
  set (s0 := set_map _ _).
  assert (Hr : mapReady s0) by (unfold mapReady, s0; simpl; rewrite Hl; eauto).
  destruct (reconciled_mapReady s0 Hr) as [Hml' Href'].
  assert (F : props (reconciled s0) = props s0 /\ imageHeight (reconciled s0) = imageHeight s0
              /\ defaultBounds (reconciled s0) = defaultBounds s0
              /\ imageOverlay (reconciled s0) = imageOverlay s0 /\ L (reconciled s0) = L s0
              /\ map (reconciled s0) = map s0).
  { unfold reconciled. case_match; destruct s0; auto 10. }
  destruct F as (Fp & Fh & Fb & Fo & FL & Fm).
  unfold placed.
  change (imageHeight (set_isMapInitialized true (reconciled s0)))
    with (imageHeight (reconciled s0)).
  change (defaultBounds (set_isMapInitialized true (reconciled s0)))
    with (defaultBounds (reconciled s0)).
  change (imageOverlay (set_isMapInitialized true (reconciled s0)))
    with (imageOverlay (reconciled s0)).
  change (L (set_isMapInitialized true (reconciled s0))) with (L (reconciled s0)).
  change (map (set_isMapInitialized true (reconciled s0))) with (map (reconciled s0)).
  change (props (set_isMapInitialized true (reconciled s0))) with (props (reconciled s0)).
  change (markerLayer (set_isMapInitialized true (reconciled s0)))
    with (markerLayer (reconciled s0)).
  change (markersRef (set_isMapInitialized true (reconciled s0)))
    with (markersRef (reconciled s0)).
  rewrite Fh, Fb, Fo, FL, Fm, Fp, Hml', Href'.
  repeat split; try reflexivity.
  - simpl. rewrite Hl. eauto.
  - eexists. split; [reflexivity|]. left.
    change (defaultBounds (set_isMapInitialized true (reconciled s0)))
      with (defaultBounds (reconciled s0)).
    rewrite Fb. simpl. eauto.
  - exists (selectedMarkerLabel s0). rewrite handles_for_current.
    assert (E : handles_for (selectedMarkerLabel s0) (set_isMapInitialized true (reconciled s0))
                = handles_for (selectedMarkerLabel s0) s0).
    { apply handles_for_ext; simpl; assumption. }
    rewrite E. auto.
Qed.

(** ** The location follows the selection *)

Lemma synced_clicked label s : synced (clicked label s).
Proof.
  unfold synced, effective_name.
  destruct (reconciled_frame
              (written_back
                 (if String.eqb (selectedMarkerLabel s) label
                  then reset_view (set_selectedMarkerLabel "" s)
                  else fly_to label (set_selectedMarkerLabel label s))))
    as (Hsel & Hroute & _).
  unfold clicked. rewrite Hsel, Hroute. simpl.
  destruct (String.eqb (selectedMarkerLabel _) "") eqn:E; simpl.
  - apply String.eqb_eq in E. symmetry. exact E.
  - reflexivity.
Qed.

Lemma synced_reconciled s : synced s -> synced (reconciled s).
Proof.
  unfold synced, effective_name.
  destruct (reconciled_frame s) as (Hsel & Hroute & _). rewrite Hsel, Hroute. auto.
Qed.

Lemma restored_synced s :
  selectedMarkerLabel s = "" \/ synced s ->
  synced (final (try_catch setStateFromQueryParam
                   (console_error "Failed to initialize map:") s)).
Proof.
  intros H. unfold try_catch. rewrite setStateFromQueryParam_spec.
  unfold restored, synced, effective_name in *.
  destruct (query_name (route s)) as [n|] eqn:Hq.
  - destruct (String.eqb_spec n "") as [->|Hn].
    + simpl. rewrite Hq. destruct H; congruence.
    + destruct (map s) eqn:Hm; [destruct (markersRef s !! n)|];
        unfold with_view; simpl; rewrite ?Hm; simpl; rewrite Hq; reflexivity.
  - simpl. rewrite Hq. destruct H; congruence.
Qed.

Lemma image_shown_frame w h s :
  selectedMarkerLabel (image_shown w h s) = selectedMarkerLabel s /\
  route (image_shown w h s) = route s /\
  pushed (image_shown w h s) = pushed s /\
  console (image_shown w h s) = console s /\
  props (image_shown w h s) = props s.
Proof.
  unfold image_shown. destruct (map s); [|auto]. set (s0 := set_map _ _).
  destruct (reconciled_frame s0) as (H1 & H2 & H3 & _ & H5 & H6).
  simpl. rewrite H1, H2, H3, H5, H6. auto.
Qed.

Lemma step_inv_all c ev c' : inv_all c -> step c ev = Some c' -> inv_all c'.
Proof.
  intros (Hinv & Himg & Hsyn) Hstep.
  split; [eapply step_inv; eassumption|].
  destruct c as [s p]. unfold inv, inv_image, inv_synced, step in *. simpl in *.
  destruct ev, p as [|[]| |]; simpl in *; simplify_eq; simpl.
  - destruct Hinv as (Hf & ? & ?).
    rewrite initializeMap_enter_spec by apply Hf. simpl. auto.
  - auto.
  - destruct Hinv as (Hf & ? & HL).
    rewrite (initializeMap_css_spec _ HL). simpl. auto.
  - auto.
  - auto.
  - destruct Hinv as (Hf & Hm & HL).
    rewrite (initializeMap_image_spec _ _ _ Hm HL). simpl. split.
    + exists width, height. apply placed_restored, placed_image_shown; assumption.
    + apply restored_synced.
      destruct (image_shown_frame width height s) as (Hs & Hr & _).
      unfold synced, effective_name in *. rewrite Hs, Hr. exact Hsyn.
  - auto.
  - rewrite handleMarkerClick_spec. simpl. split; [exact I|]. right. apply synced_clicked.
  - rewrite handleMarkerClick_spec. simpl. split; [exact I|]. right. apply synced_clicked.
  - rewrite handleMarkerClick_spec. simpl. split; [|right; apply synced_clicked].
    destruct Hinv as ((_ & Hn) & _). rewrite (clicked_nothing_rendered _ _ Hn). exact Himg.
  - rewrite handleMarkerClick_spec. simpl. split; [|apply synced_clicked].
    destruct Himg as (w & h & Hp). exists w, h. apply placed_clicked, Hp.
  - rewrite handleMarkerClick_spec. simpl. split; [exact I|]. right. apply synced_clicked.
  - rewrite updateMarkers_spec. simpl. destruct Hinv as (Hf & _).
    rewrite (reconciled_fresh _ Hf). auto.
  - rewrite updateMarkers_spec. simpl. destruct Hinv as (Hf & _).
    rewrite (reconciled_fresh _ Hf). auto.
  - rewrite updateMarkers_spec. simpl. destruct Hinv as (Hf & _).
    rewrite (reconciled_fresh _ Hf). auto.
  - rewrite updateMarkers_spec. simpl. split; [|apply synced_reconciled, Hsyn].
    destruct Himg as (w & h & Hp). exists w, h. apply placed_reconciled, Hp.
  - rewrite updateMarkers_spec. simpl. rewrite (reconciled_fresh _ Hinv). auto.
Qed.

Lemma run_inv_all evs : forall c c', inv_all c -> run c evs = Some c' -> inv_all c'.
Proof.
  induction evs as [|ev evs IH]; simpl; intros c c' Hinv Hrun.
  - congruence.
  - destruct (step c ev) as [c1|] eqn:Hstep; [|discriminate].
    eapply IH; [eapply step_inv_all; eassumption | exact Hrun].
Qed.

Lemma reachable_inv_all p r c : reachable p r c -> inv_all c.
Proof.
  intros [evs Hrun]. eapply run_inv_all; [|exact Hrun].
  split; [|split].
  - unfold inv. simpl. unfold fresh, nothing_rendered. simpl. auto 10.
  - exact I.
  - left. reflexivity.
Qed.




Lemma placed_lookup_NoDup w h s marker :
  placed w h s -> List.NoDup (labels s) -> In marker (markers (props s)) ->
  exists hd, markersRef s !! Marker.label marker = Some hd /\
    latlng hd = position (inject_Z h) marker.
Proof.
  intros H Hnd Hin. open_placed H. rewrite Href. unfold handles_for.
  rewrite (foldl_register_NoDup (handle_of (set_selectedMarkerLabel sel0 s))
             (markers (props s)) (fun _ => eq_refl) Hnd ∅ marker Hin).
  eexists. split; [reflexivity|]. rewrite latlng_handle_of. simpl. rewrite Hheight. reflexivity.
Qed.

(** ** Properties *)

(** X1: in no state at all, reachable or not, does [updateMarkers], [resetMapView],
    [setQueryParam] or [createMarkerIcon] throw; [createMarkerIcon] leaves the
    state alone and returns the empty icon exactly when the library is not
    loaded. *)
Theorem guarded_operations_never_throw (s : State) (label : string) (isSelected : bool) :
  threw (updateMarkers s) = false /\
  threw (resetMapView s) = false /\
  threw (setQueryParam label s) = false /\
  exists i, createMarkerIcon label isSelected s = Ok i s /\
    (i = EmptyIcon <-> L s = None).
Proof.
  rewrite updateMarkers_spec, resetMapView_spec.
  split; [reflexivity|]. split; [reflexivity|]. split; [reflexivity|].
  unfold createMarkerIcon, useL. munfold.
  destruct (L s) as [l|] eqn:Hl; simpl.
  - rewrite Hl. eexists. split; [reflexivity|]. split; discriminate.
  - eexists. split; [reflexivity|]. split; reflexivity.
Qed.



Lemma reconciled_idempotent s : reconciled (reconciled s) = reconciled s.
Proof.
  unfold reconciled.
  destruct (map s) eqn:Hm, (markerLayer s) eqn:Hml, (L s) eqn:Hl; simpl;
    rewrite ?Hm, ?Hml, ?Hl; simpl; reflexivity.
Qed.

(** X3: a second reconciliation pass changes nothing, in any state; in particular
    the pass the selection watcher runs after a click leaves the state the
    click produced. *)
Theorem updateMarkers_idempotent (s : State) (label : string) :
  (updateMarkers;; updateMarkers) s = updateMarkers s /\
  (handleMarkerClick label;; updateMarkers) s = handleMarkerClick label s.
Proof.
  unfold mbind, M_bind.
  rewrite handleMarkerClick_spec, updateMarkers_spec. cbv iota beta.
  rewrite !updateMarkers_spec.
  unfold clicked. rewrite !reconciled_idempotent. auto.
Qed.

(** X4: [setStateFromQueryParam] throws exactly when the location names a
    non-empty label, the map exists and the registry has no handle for that
    label; thrown or not, the selection afterwards is the named label when
    there is one and is unchanged otherwise, and the location is untouched. *)
Theorem setStateFromQueryParam_throws_iff (s : State) :
  (threw (setStateFromQueryParam s) = true <->
   exists n, query_name (route s) = Some n /\ n <> "" /\
             is_Some (map s) /\ markersRef s !! n = None) /\
  selectedMarkerLabel (final (setStateFromQueryParam s))
  = (if truthy_str (query_name (route s)) then effective_name s
     else selectedMarkerLabel s) /\
  route (final (setStateFromQueryParam s)) = route s.
Proof.
  rewrite setStateFromQueryParam_spec. unfold restored, effective_name, with_view.
  destruct (query_name (route s)) as [n|] eqn:Hq; simpl.
  - destruct (String.eqb_spec n "") as [->|Hn]; simpl.
    + split; [|auto]. split; [discriminate|]. intros (n & [= <-] & Hn & _). congruence.
    + destruct (map s) as [m|] eqn:Hm; [destruct (markersRef s !! n) eqn:Hl|]; simpl;
        rewrite ?Hm; simpl; (split; [|auto]).
      * split; [discriminate|]. intros (n' & [= <-] & _ & _ & ?). congruence.
      * split; [|reflexivity]. intros _. exists n. eauto.
      * split; [discriminate|]. intros (n' & _ & _ & [? ?] & _). discriminate.
  - split; [|auto]. split; [discriminate|]. intros (n & ? & _). discriminate.
Qed.

(** X5: when the container ref is unset at mount, [initializeMap] returns at once:
    the promise is fulfilled, nothing is logged, no library, map or layer is
    ever created and the loading indicator stays; the restore still sets the
    selection to a non-empty name of the location, whether or not a marker
    carries it. *)
Theorem mount_without_container (s : State) :
  mapContainer s = false ->
  map s = None ->
  exists s', step (mkConfig s NotStarted) Mount = Some (mkConfig s' Fulfilled) /\
    selectedMarkerLabel s'
    = (if truthy_str (query_name (route s)) then effective_name s
       else selectedMarkerLabel s) /\
    console s' = console s /\ map s' = None /\ L s' = L s /\
    markerLayer s' = markerLayer s /\ markersRef s' = markersRef s /\
    showsLoading s' = showsLoading s.
Proof.
  intros Hc Hm.
  assert (E : initializeMap_enter s = Ok Resolved s).
  { unfold initializeMap_enter. munfold. rewrite Hc. reflexivity. }
  unfold step. cbn [init st]. rewrite E. unfold onMounted_chain, try_catch.
  rewrite setStateFromQueryParam_spec.
  unfold restored, effective_name, showsLoading. rewrite Hm.
  destruct (query_name (route s)) as [n|]; simpl.
  - destruct (String.eqb n ""); simpl; eexists; (split; [reflexivity|]); simpl; auto 10.
  - eexists. split; [reflexivity|]. auto 10.
Qed.

Lemma mount_without_container_witness :
  exists s', step (mkConfig (detached onlyAProps staleRoute) NotStarted) Mount
             = Some (mkConfig s' Fulfilled) /\
    selectedMarkerLabel s'
    = (if truthy_str (query_name (route (detached onlyAProps staleRoute)))
       then effective_name (detached onlyAProps staleRoute)
       else selectedMarkerLabel (detached onlyAProps staleRoute)) /\
    console s' = console (detached onlyAProps staleRoute) /\ map s' = None /\
    L s' = L (detached onlyAProps staleRoute) /\
    markerLayer s' = markerLayer (detached onlyAProps staleRoute) /\
    markersRef s' = markersRef (detached onlyAProps staleRoute) /\
    showsLoading s' = showsLoading (detached onlyAProps staleRoute).
Proof.
  apply (mount_without_container (detached onlyAProps staleRoute)); reflexivity.
Defined.






(** ** The event loop *)

(** X8: in every reachable configuration the loading indicator is hidden exactly
    when the promise of [initializeMap] is fulfilled, and that is exactly when
    the three guards of [updateMarkers] pass. *)
Theorem loading_indicator_until_fulfilled (p : FloorMapProps) (r : Route) (c : Config) :
  reachable p r c ->
  (showsLoading (st c) = false <-> init c = Fulfilled) /\
  (mapReady (st c) <-> init c = Fulfilled).
Proof.
  intros Hreach. pose proof (reachable_inv _ _ _ Hreach) as Hinv.
  unfold inv, showsLoading in Hinv |- *.
  assert (F : forall s, fresh s -> isMapInitialized s = false /\ ~ mapReady s).
  { intros s (_ & Hi & _ & _ & _ & Hml & _). split; [exact Hi|].
    intros (_ & [? Hx] & _). congruence. }
  destruct (init c) as [|[]| |] eqn:Hi;
    try (assert (Hf : fresh (st c)) by apply Hinv;
         destruct (F _ Hf) as [H1 H2]; rewrite H1; simpl;
         split; split; intros; (discriminate || contradiction)).
  destruct Hinv as (Hr & _ & Hinit). rewrite Hinit. simpl. tauto.
Qed.

Lemma loading_indicator_until_fulfilled_witness :
  (showsLoading (st demoLoading) = false <-> init demoLoading = Fulfilled) /\
  (mapReady (st demoLoading) <-> init demoLoading = Fulfilled).
Proof.
  exact (loading_indicator_until_fulfilled demoProps demoRoute demoLoading
           demoLoading_reachable).
Defined.







(** ** Where markers are drawn *)








Lemma reconciled_styling s :
  mapReady s ->
  exists hs, markerLayer (reconciled s) = Some hs /\
    forall hd, In hd hs ->
      (selected_styling hd = true <-> onClick hd = selectedMarkerLabel s).
Proof.
  intros Hr. destruct (reconciled_mapReady s Hr) as [Hml _].
  eexists. split; [exact Hml|]. intros hd Hin.
  apply in_map_iff in Hin as (m & <- & _).
  rewrite selected_styling_handle_of. apply String.eqb_eq.
Qed.

Lemma placed_mapReady w h s : placed w h s -> mapReady s.
Proof.
  intros H. open_placed H. unfold mapReady. rewrite Hmap, Hlayer, Hlib. eauto.
Qed.

(** X14: in a ready reachable configuration with unique labels, a click on a marker
    of the list that is not the selection selects it, moves the camera,
    animated and at zoom 1, to that marker's position for the captured image
    height, and leaves exactly the handles with that label styled selected. *)
Theorem click_flies_to_marker
    (p : FloorMapProps) (r : Route) (c : Config) (marker : Marker.t) :
  reachable p r c ->
  init c = Fulfilled ->
  List.NoDup (labels (st c)) ->
  In marker (markers (props (st c))) ->
  Marker.label marker <> selectedMarkerLabel (st c) ->
  exists s' hs,
    handleMarkerClick (Marker.label marker) (st c) = Ok tt s' /\
    selectedMarkerLabel s' = Marker.label marker /\
    camera s' = Some (SetView (position (imageHeight (st c)) marker) 1 animated) /\
    markerLayer s' = Some hs /\
    forall hd, In hd hs ->
      (selected_styling hd = true <-> onClick hd = Marker.label marker).
Proof.
  intros Hreach Hi Hnd Hin Hne.
  destruct (reachable_inv_all _ _ _ Hreach) as (_ & Himg & _).
  unfold inv_image in Himg. rewrite Hi in Himg. destruct Himg as (w & h & Hp).
  set (s := st c) in *. set (l := Marker.label marker) in *.
  destruct (placed_lookup_NoDup w h s marker Hp Hnd Hin) as (hd & Hlook & Hpos).
  fold l in Hlook.
  assert (Hh : imageHeight s = inject_Z h) by (destruct Hp as (_ & ? & _); assumption).
  assert (Hm : exists v, map s = Some (mkLMap v (Some (image_maxBounds w h emptyMap))
                                         [ImageLayer; MarkerLayer])).
  { open_placed Hp. eauto. }
  destruct Hm as (v & Hm).
  assert (Hne' : selectedMarkerLabel s <> l) by congruence.
  set (t := written_back (fly_to l (set_selectedMarkerLabel l s))).
  assert (Et : clicked l s = reconciled t).
  { unfold clicked. rewrite (eqb_neq_false _ _ Hne'). reflexivity. }
  assert (Ht : selectedMarkerLabel t = l /\
               map t = Some (mkLMap (SetView (latlng hd) 1 animated)
                               (Some (image_maxBounds w h emptyMap))
                               [ImageLayer; MarkerLayer])).
  { unfold t, fly_to, with_view. simpl. rewrite Hlook, Hm. simpl. auto. }
  destruct Ht as [Hsel Hmap].
  assert (Hr : mapReady t).
  { apply (placed_mapReady w h), placed_written_back, placed_fly_to, Hp. }
  destruct (reconciled_styling t Hr) as (hs & Hml & Hst).
  destruct (reconciled_frame t) as (Fsel & _ & _ & Fmap & _).
  exists (reconciled t), hs. rewrite handleMarkerClick_spec, Et.
  split; [reflexivity|]. split; [congruence|]. split.
  - unfold camera. rewrite Fmap, Hmap. simpl. rewrite Hpos, Hh. reflexivity.
  - split; [exact Hml|]. intros hd' Hin'. rewrite (Hst hd' Hin'), Hsel. reflexivity.
Qed.

Lemma click_flies_to_marker_witness :
  exists s' hs,
    handleMarkerClick (Marker.label markerB) (st demoReadyConfig) = Ok tt s' /\
    selectedMarkerLabel s' = Marker.label markerB /\
    camera s'
    = Some (SetView (position (imageHeight (st demoReadyConfig)) markerB) 1 animated) /\
    markerLayer s' = Some hs /\
    forall hd, In hd hs ->
      (selected_styling hd = true <-> onClick hd = Marker.label markerB).
Proof.
  apply (click_flies_to_marker demoProps demoRoute demoReadyConfig markerB).
  - exact demoReady_reachable.
  - reflexivity.
  - vm_compute. repeat constructor; simpl; intuition discriminate.
  - vm_compute. auto.
  - vm_compute. discriminate.
Defined.

(** ** Restoring the selection from the location *)















(** X18: when a dynamic import fails, the promise of [initializeMap] is rejected
    with that error, which is logged once by [initializeMap] and once by the
    caller; from then on the promise stays rejected, nothing more is logged
    and nothing is ever rendered. *)
Theorem import_failure_is_terminal (p : FloorMapProps) (r : Route) (c c' : Config) :
  reachable p r c ->
  step c ImportFailed = Some c' ->
  init c' = Rejected ImportError /\
  console (st c')
  = (console (st c) ++ [("Error initializing map:", ImportError);
                        ("Failed to initialize map:", ImportError)])%list /\
  forall evs c'', run c' evs = Some c'' ->
    init c'' = Rejected ImportError /\
    nothing_rendered (st c'') /\
    console (st c'') = console (st c').
Proof.
  intros Hreach Hstep. pose proof (reachable_inv _ _ _ Hreach) as Hinv.
  destruct c as [s pr]. unfold inv, step in *. simpl in *.
  assert (Hf : fresh s) by (destruct pr as [|[]| |]; simplify_eq; apply Hinv).
  assert (Hc' : c' = mkConfig (add_console ("Failed to initialize map:", ImportError)
                                 (add_console ("Error initializing map:", ImportError) s))
                              (Rejected ImportError)).
  { destruct pr as [|[]| |]; simplify_eq; reflexivity. }
  subst c'. simpl.
  assert (Hf' : fresh (add_console ("Failed to initialize map:", ImportError)
                         (add_console ("Error initializing map:", ImportError) s))).
  { solve_fresh. }
  split; [reflexivity|]. split; [rewrite <- app_assoc; reflexivity|].
  intros evs c'' Hrun.
  destruct (run_rejected evs (mkConfig _ (Rejected ImportError)) ImportError c''
              eq_refl Hf' Hrun) as (? & [_ ?] & ?).
  auto.
Qed.

Lemma demoImporting_reachable : reachable demoProps demoRoute demoImporting.
Proof. exists [Mount]. vm_compute. reflexivity. Qed.

Lemma import_failure_is_terminal_witness :
  exists c', step demoImporting ImportFailed = Some c' /\
  init c' = Rejected ImportError /\
  console (st c')
  = (console (st demoImporting) ++ [("Error initializing map:", ImportError);
                                    ("Failed to initialize map:", ImportError)])%list /\
  forall evs c'', run c' evs = Some c'' ->
    init c'' = Rejected ImportError /\
    nothing_rendered (st c'') /\
    console (st c'') = console (st c').
Proof.
  eexists. split; [vm_compute; reflexivity|].
  eapply (import_failure_is_terminal demoProps demoRoute demoImporting).
  - exact demoImporting_reachable.
  - vm_compute. reflexivity.
Defined.
